(** * IRI support of GNU Wget (src/iri.c): charset negotiation and transcoding

    A shallow embedding of [src/iri.c].  C objects are kept as the code has
    them: [char *] values are pointers into a heap of allocated blocks,
    [size_t] is a 64-bit unsigned integer with wrap-around, the file-level
    variables [remote], [current], [utf8_encode], [ugly_no_encode] and
    [locale2utf8] are fields of an explicit program state, and every function
    of the file is a computation in a state-and-fault monad.  The external
    capabilities ([iconv], [idna_to_ascii_8z], [stringprep_locale_charset])
    are parameters collected in an environment record. *)

From Stdlib Require Import ZArith Lia String Ascii.
From stdpp Require Import base tactics option list numbers.

Local Open Scope Z_scope.

(** ** Bytes and [size_t] *)

(** A [char] is kept as its unsigned value, 0 to 255. *)
Abbreviation byte := Z.

Definition SIZE_WIDTH : Z := 64.
Definition SIZE_MOD : Z := 2 ^ SIZE_WIDTH.

(** Unsigned [size_t] arithmetic: every result is taken modulo 2^64. *)
Definition wrap (z : Z) : Z := z mod SIZE_MOD.

(** A [size_t] displacement added to a pointer on a flat 64-bit address
    space: the sum is taken modulo 2^64, so a displacement of 2^64 - k
    moves the pointer k bytes backwards. *)
Definition displacement (z : Z) : Z :=
  let w := wrap z in if w <? 2 ^ (SIZE_WIDTH - 1) then w else w - SIZE_MOD.

(** ** Outcomes *)

Inductive fault : Type :=
  | NullDeref        (* a NULL pointer was dereferenced *)
  | OutOfBounds      (* access outside the bounds of a block *)
  | UninitRead       (* an indeterminate byte was inspected *)
  | UseAfterFree     (* access to a released block *)
  | InvalidFree.     (* xfree of something xmalloc never returned, or twice *)

Inductive outcome (A : Type) : Type :=
  | Done (a : A)
  | Fault (f : fault)
  | OutOfFuel.
Arguments Done {A} a.
Arguments Fault {A} f.
Arguments OutOfFuel {A}.

Definition obind {A B} (f : A -> outcome B) (o : outcome A) : outcome B :=
  match o with
  | Done a => f a
  | Fault e => Fault e
  | OutOfFuel => OutOfFuel
  end.

(** ** The heap *)

(** A cell holds a byte, or nothing when its content is indeterminate
    (fresh from [xmalloc]). *)
Abbreviation cell := (option byte).

Record block : Type := Block { live : bool; cells : list cell }.

(** Blocks are never reused: releasing one only clears [live], so a
    dangling pointer stays recognisable. *)
Abbreviation heap := (list block).

(** A non-NULL pointer: a block and a byte offset into it.  [char *]
    values that may be NULL are [option ptr]. *)
Definition ptr : Type := nat * Z.

Definition ptr_add (p : ptr) (n : Z) : ptr := (p.1, p.2 + n).

Definition alloc_cells (h : heap) (cs : list cell) : ptr * heap :=
  ((length h, 0), h ++ [Block true cs]).

(** [xmalloc n]: a fresh block of [n] indeterminate bytes. *)
Definition heap_xmalloc (h : heap) (n : Z) : ptr * heap :=
  alloc_cells h (replicate (Z.to_nat n) None).

Definition live_cells (h : heap) (b : nat) : outcome (list cell) :=
  match h !! b with
  | Some (Block true cs) => Done cs
  | Some (Block false _) => Fault UseAfterFree
  | None => Fault OutOfBounds
  end.

(** [xfree p]: [p] must be the start of a live block. *)
Definition heap_xfree (h : heap) (p : ptr) : outcome heap :=
  match h !! p.1 with
  | Some (Block true cs) =>
      if p.2 =? 0 then Done (<[p.1 := Block false cs]> h) else Fault InvalidFree
  | _ => Fault InvalidFree
  end.

Definition heap_load (h : heap) (p : ptr) : outcome byte :=
  obind (fun cs =>
    if p.2 <? 0 then Fault OutOfBounds else
    match cs !! Z.to_nat p.2 with
    | Some (Some c) => Done c
    | Some None => Fault UninitRead
    | None => Fault OutOfBounds
    end) (live_cells h p.1).

Definition heap_store (h : heap) (p : ptr) (c : byte) : outcome heap :=
  obind (fun cs =>
    if (p.2 <? 0) || (Z.of_nat (length cs) <=? p.2) then Fault OutOfBounds
    else Done (<[p.1 := Block true (<[Z.to_nat p.2 := Some c]> cs)]> h))
    (live_cells h p.1).

Fixpoint heap_store_bytes (h : heap) (p : ptr) (bs : list byte) : outcome heap :=
  match bs with
  | [] => Done h
  | c :: bs' => obind (fun h' => heap_store_bytes h' (ptr_add p 1) bs') (heap_store h p c)
  end.

(** [memcpy (dst, src, n)]: [n] cells of the block of [src] replace [n]
    cells of the block of [dst]; both ranges must lie inside their blocks. *)
Definition heap_memcpy (h : heap) (dst src : ptr) (n : Z) : outcome heap :=
  obind (fun scs =>
  obind (fun dcs =>
    if (Z.of_nat (length scs) <? src.2 + n) || (Z.of_nat (length dcs) <? dst.2 + n)
       || (src.2 <? 0) || (dst.2 <? 0)
    then Fault OutOfBounds
    else
      let moved := take (Z.to_nat n) (drop (Z.to_nat src.2) scs) in
      Done (<[dst.1 := Block true (take (Z.to_nat dst.2) dcs ++ moved
                                   ++ drop (Z.to_nat dst.2 + Z.to_nat n) dcs)]> h))
    (live_cells h dst.1)) (live_cells h src.1).

(** The C string that starts at the head of a run of cells: the bytes up
    to the first NUL. *)
Fixpoint cstring_of (cs : list cell) : outcome (list byte) :=
  match cs with
  | [] => Fault OutOfBounds
  | None :: _ => Fault UninitRead
  | Some c :: cs' =>
      if c =? 0 then Done [] else obind (fun s => Done (c :: s)) (cstring_of cs')
  end.

Definition heap_cstring (h : heap) (p : ptr) : outcome (list byte) :=
  obind (fun cs =>
    if p.2 <? 0 then Fault OutOfBounds else cstring_of (drop (Z.to_nat p.2) cs))
    (live_cells h p.1).

(** [xstrdup] and [strdupdelim] (utils.c) return a fresh block holding the
    bytes and a terminating NUL. *)
Definition heap_strdup (h : heap) (s : list byte) : ptr * heap :=
  alloc_cells h (map Some (s ++ [0])).

(** ** Character classes and string functions (c-ctype.h, string.h) *)

(** [c_isascii (c)] is [(c & ~0x7f) == 0]. *)
Definition c_isascii (c : byte) : bool := Z.land c (Z.lnot 127) =? 0.

(** [c_isspace]: space, \t, \n, \v, \f, \r. *)
Definition c_isspace (c : byte) : bool := (c =? 32) || ((9 <=? c) && (c <=? 13)).

Definition c_tolower (c : byte) : byte :=
  if (65 <=? c) && (c <=? 90) then c + 32 else c.

Definition bytes_of_string (s : string) : list byte :=
  map (fun a => Z.of_N (N_of_ascii a)) (list_ascii_of_string s).

(** [strcmp] and [strcasecmp] walk both strings in step and stop at the
    first difference or at the common NUL; [fold] is the identity for the
    first and [c_tolower] for the second. *)
Fixpoint compare_cells (fold : byte -> byte) (a b : list cell) : outcome Z :=
  match a, b with
  | [], _ | _, [] => Fault OutOfBounds
  | None :: _, _ | _, None :: _ => Fault UninitRead
  | Some x :: a', Some y :: b' =>
      if fold x =? fold y
      then if x =? 0 then Done 0 else compare_cells fold a' b'
      else Done (fold x - fold y)
  end.

Definition cells_at (h : heap) (p : ptr) : outcome (list cell) :=
  obind (fun cs => if p.2 <? 0 then Fault OutOfBounds else Done (drop (Z.to_nat p.2) cs))
        (live_cells h p.1).

Definition heap_strcmp (h : heap) (p q : ptr) : outcome Z :=
  obind (fun a => obind (fun b => compare_cells id a b) (cells_at h q)) (cells_at h p).

(** [strcasecmp (p, lit)] against a string literal. *)
Definition heap_strcasecmp (h : heap) (p : ptr) (lit : list byte) : outcome Z :=
  obind (fun a => compare_cells c_tolower a (map Some (lit ++ [0]))) (cells_at h p).

Fixpoint case_prefix (needle hay : list byte) : bool :=
  match needle, hay with
  | [], _ => true
  | _ :: _, [] => false
  | x :: needle', y :: hay' => (c_tolower x =? c_tolower y) && case_prefix needle' hay'
  end.

(** [strcasestr]: offset of the first case-insensitive occurrence. *)
Fixpoint strcasestr (hay needle : list byte) : option nat :=
  if case_prefix needle hay then Some 0%nat
  else match hay with
       | [] => None
       | _ :: hay' => option_map S (strcasestr hay' needle)
       end.

(** ** The transcoder capability (iconv) *)

Definition E2BIG : Z := 7.
Definition EBADF : Z := 9.
Definition EINVAL : Z := 22.
Definition EILSEQ : Z := 84.

(** What a conversion does with the character that starts at the head of
    the input: it is given the lead byte and the bytes after it. *)
Inductive conv_step : Type :=
  | Converted (trail : nat) (output : list byte) (* consumes 1 + trail bytes *)
  | IllegalSeq                                   (* EILSEQ *)
  | Incomplete                                   (* EINVAL *)
  | Failed (errno : Z).                          (* any other errno *)

Definition codec := byte -> list byte -> conv_step.

Inductive iconv_ret : Type :=
  | IconvDone                 (* a count, not (size_t)(-1) *)
  | IconvFail (errno : Z).    (* (size_t)(-1), with errno *)

(** [iconv (cd, &in, &inlen, out, &outlen)] converts character after
    character, advancing both cursors, until the input is consumed or a
    character cannot be converted or does not fit into [outlen] bytes.
    [skip] counts the trail bytes of the character just converted. *)
Fixpoint iconv_chars (c : codec) (skip : nat) (inp : list byte) (out : ptr) (outlen : Z)
    (h : heap) : outcome (iconv_ret * list byte * ptr * Z * heap) :=
  match inp with
  | [] => Done (IconvDone, [], out, outlen, h)
  | b :: rest =>
      match skip with
      | S k => iconv_chars c k rest out outlen h
      | O =>
          match c b rest with
          | Converted k o =>
              let n := Z.of_nat (length o) in
              if outlen <? n then Done (IconvFail E2BIG, inp, out, outlen, h)
              else obind (fun h' => iconv_chars c k rest (ptr_add out n) (outlen - n) h')
                         (heap_store_bytes h out o)
          | IllegalSeq => Done (IconvFail EILSEQ, inp, out, outlen, h)
          | Incomplete => Done (IconvFail EINVAL, inp, out, outlen, h)
          | Failed e => Done (IconvFail e, inp, out, outlen, h)
          end
      end
  end.

(** ** Program state *)

Inductive iconv_t : Type :=
  | IconvNull                (* NULL *)
  | IconvInvalid             (* (iconv_t)(-1) *)
  | IconvDesc (id : nat).

Record descriptor : Type := Descriptor { is_open : bool; conv : codec }.

Inductive log_msg : Type :=
  | LogEncodingInvalid (encoding : list byte)
  | LogLocaleUnset
  | LogUnsupported (fromcode tocode : list byte)
  | LogInvalidSequence
  | LogUnhandledErrno (errno : Z)
  | LogIdnEncodeFailed (ret : Z).

(** The fields of [opt] (options.h) that iri.c reads. *)
Record options : Type := Options {
  locale : option ptr;
  encoding_remote : option ptr;
  enable_iri : bool
}.

Record state : Type := State {
  mem : heap;
  opt : options;
  remote : option ptr;          (* char *remote *)
  current : option ptr;         (* char *current *)
  utf8_encode : bool;
  ugly_no_encode : bool;
  locale2utf8 : iconv_t;
  descriptors : list descriptor; (* every iconv_t ever opened *)
  log : list log_msg
}.

Definition with_mem (h : heap) (st : state) : state :=
  State h (opt st) (remote st) (current st) (utf8_encode st) (ugly_no_encode st)
        (locale2utf8 st) (descriptors st) (log st).
Definition with_opt (o : options) (st : state) : state :=
  State (mem st) o (remote st) (current st) (utf8_encode st) (ugly_no_encode st)
        (locale2utf8 st) (descriptors st) (log st).
Definition with_remote (r : option ptr) (st : state) : state :=
  State (mem st) (opt st) r (current st) (utf8_encode st) (ugly_no_encode st)
        (locale2utf8 st) (descriptors st) (log st).
Definition with_current (c : option ptr) (st : state) : state :=
  State (mem st) (opt st) (remote st) c (utf8_encode st) (ugly_no_encode st)
        (locale2utf8 st) (descriptors st) (log st).
Definition with_utf8_encode (b : bool) (st : state) : state :=
  State (mem st) (opt st) (remote st) (current st) b (ugly_no_encode st)
        (locale2utf8 st) (descriptors st) (log st).
Definition with_ugly_no_encode (b : bool) (st : state) : state :=
  State (mem st) (opt st) (remote st) (current st) (utf8_encode st) b
        (locale2utf8 st) (descriptors st) (log st).
Definition with_locale2utf8 (cd : iconv_t) (st : state) : state :=
  State (mem st) (opt st) (remote st) (current st) (utf8_encode st) (ugly_no_encode st)
        cd (descriptors st) (log st).
Definition with_descriptors (ds : list descriptor) (st : state) : state :=
  State (mem st) (opt st) (remote st) (current st) (utf8_encode st) (ugly_no_encode st)
        (locale2utf8 st) ds (log st).
Definition with_log (l : list log_msg) (st : state) : state :=
  State (mem st) (opt st) (remote st) (current st) (utf8_encode st) (ugly_no_encode st)
        (locale2utf8 st) (descriptors st) l.

Definition with_locale (l : option ptr) (o : options) : options :=
  Options l (encoding_remote o) (enable_iri o).

(** ** The monad of C computations: state passing with faults *)

Definition M (A : Type) : Type := state -> outcome (A * state).

#[export] Instance M_ret : MRet M := fun A a st => Done (a, st).
#[export] Instance M_bind : MBind M := fun A B f m st =>
  match m st with
  | Done (a, st') => f a st'
  | Fault e => Fault e
  | OutOfFuel => OutOfFuel
  end.

Definition gets {A} (f : state -> A) : M A := fun st => Done (f st, st).
Definition modify (f : state -> state) : M unit := fun st => Done (tt, f st).
Definition mfault {A} (e : fault) : M A := fun _ => Fault e.
Definition out_of_fuel {A} : M A := fun _ => OutOfFuel.

(** Reading the heap, and updating it. *)
Definition heap_read {A} (f : heap -> outcome A) : M A := fun st =>
  match f (mem st) with
  | Done a => Done (a, st)
  | Fault e => Fault e
  | OutOfFuel => OutOfFuel
  end.
Definition heap_write (f : heap -> outcome heap) : M unit := fun st =>
  match f (mem st) with
  | Done h => Done (tt, with_mem h st)
  | Fault e => Fault e
  | OutOfFuel => OutOfFuel
  end.
Definition heap_new (f : heap -> ptr * heap) : M ptr := fun st =>
  let '(p, h) := f (mem st) in Done (p, with_mem h st).

Definition load (p : ptr) : M byte := heap_read (fun h => heap_load h p).
Definition store (p : ptr) (c : byte) : M unit := heap_write (fun h => heap_store h p c).
Definition cstring (p : ptr) : M (list byte) := heap_read (fun h => heap_cstring h p).
Definition xmalloc (n : Z) : M ptr := heap_new (fun h => heap_xmalloc h n).
Definition xfree (p : ptr) : M unit := heap_write (fun h => heap_xfree h p).
Definition memcpy (dst src : ptr) (n : Z) : M unit :=
  heap_write (fun h => heap_memcpy h dst src n).
Definition strdup_bytes (s : list byte) : M ptr := heap_new (fun h => heap_strdup h s).
Definition xstrdup (p : ptr) : M ptr := s ← cstring p; strdup_bytes s.
Definition strcmp (p q : ptr) : M Z := heap_read (fun h => heap_strcmp h p q).
Definition strcasecmp (p : option ptr) (lit : list byte) : M Z :=
  match p with
  | None => mfault NullDeref
  | Some p => heap_read (fun h => heap_strcasecmp h p lit)
  end.
Definition logprintf (m : log_msg) : M unit := modify (fun st => with_log (log st ++ [m]) st).

(** ** External capabilities *)

Definition IDNA_SUCCESS : Z := 0.

Record environment : Type := Environment {
  (** [iconv_open (tocode, fromcode)]: the conversion for that pair of
      encoding names, when the pair is supported. *)
  iconv_provider : list byte -> list byte -> option codec;
  (** [stringprep_locale_charset ()]: a static string. *)
  stringprep_locale_charset : option ptr;
  (** [idna_to_ascii_8z (input, &output, 0)]: the status and, when it is
      [IDNA_SUCCESS], the bytes of the newly allocated output. *)
  idna_to_ascii_8z : list byte -> Z * list byte
}.

(** ** The functions of iri.c *)

Section Iri.

Context (E : environment).

Definition iconv_open (tocode : list byte) (fromcode : ptr) : M iconv_t :=
  from ← cstring fromcode;
  match iconv_provider E tocode from with
  | None => mret IconvInvalid
  | Some c =>
      ds ← gets descriptors;
      modify (with_descriptors (ds ++ [Descriptor true c]));;
      mret (IconvDesc (length ds))
  end.

Definition close_descriptor (id : nat) (ds : list descriptor) : list descriptor :=
  match ds !! id with
  | Some d => <[id := Descriptor false (conv d)]> ds
  | None => ds
  end.

Definition iconv_close (cd : iconv_t) : M unit :=
  match cd with
  | IconvDesc id => modify (fun st => with_descriptors (close_descriptor id (descriptors st)) st)
  | _ => mret tt
  end.

(** [iconv] on a descriptor that is not open fails with [EBADF]. *)
Definition iconv (cd : iconv_t) (inp : list byte) (out : ptr) (outlen : Z)
    : M (iconv_ret * list byte * ptr * Z) := fun st =>
  match cd with
  | IconvDesc id =>
      match descriptors st !! id with
      | Some (Descriptor true c) =>
          match iconv_chars c 0 inp out outlen (mem st) with
          | Done (r, inp', out', outlen', h) => Done ((r, inp', out', outlen'), with_mem h st)
          | Fault e => Fault e
          | OutOfFuel => OutOfFuel
          end
      | _ => Done ((IconvFail EBADF, inp, out, outlen), st)
      end
  | _ => Done ((IconvFail EBADF, inp, out, outlen), st)
  end.

(** [find_locale]. *)
Definition find_locale : M (option ptr) := mret (stringprep_locale_charset E).

Fixpoint encoding_chars_ok (s : list byte) : bool :=
  match s with
  | [] => true
  | c :: s' => if negb (c_isascii c) || c_isspace c then false else encoding_chars_ok s'
  end.

(** [check_encoding_name]. *)
Definition check_encoding_name (encoding : ptr) : M bool :=
  s ← cstring encoding;
  if encoding_chars_ok s then mret true
  else logprintf (LogEncodingInvalid s);; mret false.

(** The loop that advances [charset] while it points at a byte that is
    neither NUL nor white space: the bytes the cursor passes over. *)
Fixpoint scan_token (s : list byte) : list byte :=
  match s with
  | [] => []
  | c :: s' => if c_isspace c then [] else c :: scan_token s'
  end.

Definition charset_key : list byte := bytes_of_string "charset=".

(** [parse_charset]. *)
Definition parse_charset (str : option ptr) : M (option ptr) :=
  match str with
  | None => mret None
  | Some p =>
      c ← load p;
      if c =? 0 then mret None
      else
        s ← cstring p;
        match strcasestr s charset_key with
        | None => mret None
        | Some i =>
            let str := drop (i + 8) s in
            let token := scan_token str in
            charset ← strdup_bytes token;      (* strdupdelim (str, charset) *)
            ok ← check_encoding_name charset;
            if negb ok then xfree charset;; mret None
            else mret (Some charset)
        end
  end.

(** [open_locale_to_utf8]. *)
Definition open_locale_to_utf8 : M bool :=
  cached ← gets locale2utf8;
  match cached with
  | IconvInvalid | IconvDesc _ => mret true
  | IconvNull =>
      l ← gets (fun st => locale (opt st));
      (match l with
       | None =>
           logprintf LogLocaleUnset;;
           found ← find_locale;
           modify (fun st => with_opt (with_locale found (opt st)) st)
       | Some _ => mret tt
       end);;
      l ← gets (fun st => locale (opt st));
      match l with
      | None => mret false
      | Some l =>
          cd ← iconv_open (bytes_of_string "UTF-8") l;
          modify (with_locale2utf8 cd);;
          match cd with
          | IconvInvalid =>
              from ← cstring l;
              logprintf (LogUnsupported from (bytes_of_string "UTF-8"));;
              modify (with_locale2utf8 IconvNull);;
              mret false
          | _ => mret true
          end
      end
  end.

(** The loop of [do_conversion].  The pair [(in, inlen)] is the list [inp]
    of the [inlen] bytes found at [in]; [out] is the cursor [*out]. *)
Fixpoint do_conversion_loop (fuel : nat) (cd : iconv_t) (inp : list byte) (out : ptr)
    (outlen len done : Z) (s : ptr) (invalid tooshort : Z) : M (bool * ptr) :=
  match fuel with
  | O => out_of_fuel
  | S fuel =>
      '(r, inp, out, outlen) ← iconv cd inp out outlen;
      match r with
      | IconvDone =>
          (* the terminator is stored at s + len - outlen - done *)
          store (ptr_add s (displacement (len - outlen - done))) 0;;
          mret (true, s)
      | IconvFail errno =>
          if (errno =? EINVAL) || (errno =? EILSEQ) then
            (if invalid =? 0 then logprintf LogInvalidSequence else mret tt);;
            match inp with
            | [] => mfault OutOfBounds   (* iconv reports no sequence in an empty input *)
            | c :: inp' =>
                store out c;;            (* the byte at in goes to the cursor *)
                do_conversion_loop fuel cd inp' (ptr_add out 1) (wrap (outlen - 1))
                                   len done s (invalid + 1) tooshort
            end
          else if errno =? E2BIG then
            let done := len in
            let outlen := wrap (done + wrap (Z.of_nat (length inp) * 2)) in
            new ← xmalloc (wrap (outlen + 1));
            memcpy new s done;;
            xfree s;;
            let s := new in
            let len := outlen in
            do_conversion_loop fuel cd inp (ptr_add s (displacement done)) outlen
                               len done s invalid (tooshort + 1)
          else
            logprintf (LogUnhandledErrno errno);;
            mret (false, out)
      end
  end.

(** [do_conversion (cd, in, inlen, out)]: the result and the final [*out]. *)
Definition do_conversion (fuel : nat) (cd : iconv_t) (inp : list byte) : M (bool * ptr) :=
  let inlen := Z.of_nat (length inp) in
  let outlen := wrap (inlen * 2) in
  s ← xmalloc (wrap (outlen + 1));
  let len := outlen in
  do_conversion_loop fuel cd inp s outlen len 0 s 0 0.

(** [locale_to_utf8]. *)
Definition locale_to_utf8 (fuel : nat) (str : ptr) : M ptr :=
  l ← gets (fun st => locale (opt st));
  d ← strcasecmp l (bytes_of_string "utf-8");
  if d =? 0 then mret str
  else
    opened ← open_locale_to_utf8;
    if negb opened then mret str
    else
      cd ← gets locale2utf8;
      inp ← cstring str;                       (* strlen (str) *)
      '(ok, new) ← do_conversion fuel cd inp;
      if (ok : bool) then mret new else mret str.

(** [remote_to_utf8 (str, new)]: the result and the value of [*new], if
    the call assigned it. *)
Definition remote_to_utf8 (fuel : nat) (str : ptr) : M (bool * option ptr) :=
  override ← gets (fun st => encoding_remote (opt st));
  cur ← gets current;
  match (match override with Some r => Some r | None => cur end) with
  | None => mret (false, None)
  | Some r =>
      cd ← iconv_open (bytes_of_string "UTF-8") r;
      match cd with
      | IconvInvalid => mret (false, None)
      | _ =>
          inp ← cstring str;                   (* strlen (str) *)
          '(ret, new) ← do_conversion fuel cd inp;
          iconv_close cd;;
          d ← strcmp str new;
          if d =? 0 then xfree new;; mret (false, Some new)
          else mret (ret, Some new)
      end
  end.

(** The second half of [idn_encode]: [idna_to_ascii_8z] and its check. *)
Definition idn_to_ascii (host : ptr) : M (option ptr) :=
  s ← cstring host;
  let '(ret, output) := idna_to_ascii_8z E s in
  if negb (ret =? IDNA_SUCCESS) then
    logprintf (LogIdnEncodeFailed ret);; mret None
  else
    new ← strdup_bytes output;
    mret (Some new).

(** [idn_encode]. *)
Definition idn_encode (fuel : nat) (host : ptr) (utf8_encoded : bool) : M (option ptr) :=
  if negb utf8_encoded then
    '(converted, new) ← remote_to_utf8 fuel host;
    if negb (converted : bool) then mret None
    else match new with
         | Some host => idn_to_ascii host
         | None => mfault NullDeref
         end
  else idn_to_ascii host.

Definition get_current_charset : M (option ptr) := gets current.

Definition release (p : option ptr) : M unit :=
  match p with
  | Some p => xfree p
  | None => mret tt
  end.

Definition duplicate (p : option ptr) : M (option ptr) :=
  match p with
  | Some p => q ← xstrdup p; mret (Some q)
  | None => mret None
  end.

Definition set_current_charset (charset : option ptr) : M unit :=
  old ← gets current;
  release old;;
  new ← duplicate charset;
  modify (with_current new).

(** [set_current_as_locale]: [xstrdup (opt.locale)], whatever [opt.locale]
    is; [xstrdup] reads its argument. *)
Definition set_current_as_locale : M unit :=
  old ← gets current;
  release old;;
  l ← gets (fun st => locale (opt st));
  new ← match l with
        | Some l => xstrdup l
        | None => mfault NullDeref
        end;
  modify (with_current (Some new)).

Definition set_remote_charset (charset : option ptr) : M unit :=
  old ← gets remote;
  release old;;
  new ← duplicate charset;
  modify (with_remote new).

Definition set_remote_as_current : M unit :=
  old ← gets remote;
  release old;;
  cur ← gets current;
  new ← duplicate cur;
  modify (with_remote new).

Definition set_utf8_encode (encode : bool) : M unit := modify (with_utf8_encode encode).
Definition get_utf8_encode : M bool := gets utf8_encode.
Definition reset_utf8_encode : M unit :=
  enabled ← gets (fun st => enable_iri (opt st));
  set_utf8_encode enabled.
Definition set_ugly_no_encode (ugly : bool) : M unit := modify (with_ugly_no_encode ugly).
Definition get_ugly_no_encode : M bool := gets ugly_no_encode.

End Iri.

(** ** Conversions used in the examples *)

(** UTF-8 encoding of a code point below U+10000. *)
Definition utf8_of_codepoint (u : Z) : list byte :=
  if u <? 128 then [u]
  else if u <? 2048 then
    [Z.lor 192 (Z.shiftr u 6); Z.lor 128 (Z.land u 63)]
  else
    [Z.lor 224 (Z.shiftr u 12); Z.lor 128 (Z.land (Z.shiftr u 6) 63);
     Z.lor 128 (Z.land u 63)].

(** TIS-620 (Thai) to UTF-8: ASCII is kept, 0xA1-0xDA and 0xDF-0xFB are
    U+0E01-U+0E3A and U+0E3F-U+0E5B (three bytes each), every other byte
    is an illegal sequence. *)
Definition tis620_to_utf8 : codec := fun c _ =>
  if c <? 128 then Converted 0 [c]
  else if ((161 <=? c) && (c <=? 218)) || ((223 <=? c) && (c <=? 251))
  then Converted 0 (utf8_of_codepoint (3584 + (c - 160)))
  else IllegalSeq.

(** ISO-8859-1 to UTF-8: every byte is its own code point. *)
Definition latin1_to_utf8 : codec := fun c _ => Converted 0 (utf8_of_codepoint c).

(** A conversion whose step fails with an errno that [do_conversion] does
    not handle. *)
Definition EIO : Z := 5.
Definition failing_codec : codec := fun _ _ => Failed EIO.

Definition sample_provider (tocode fromcode : list byte) : option codec :=
  if bool_decide (tocode = bytes_of_string "UTF-8") then
    if bool_decide (fromcode = bytes_of_string "TIS-620") then Some tis620_to_utf8
    else if bool_decide (fromcode = bytes_of_string "ISO-8859-1") then Some latin1_to_utf8
    else if bool_decide (fromcode = bytes_of_string "X-FAILING") then Some failing_codec
    else None
  else None.

Definition sample_env : environment :=
  Environment sample_provider None (fun s => (IDNA_SUCCESS, s)).

Definition empty_options : options := Options None None false.

(** The state at process start: no heap, empty registry, no descriptor. *)
Definition initial_state : state :=
  State [] empty_options None None false false IconvNull [] [].

(** A state with one open descriptor for [c] and nothing else. *)
Definition state_with_codec (c : codec) : state :=
  State [] empty_options None None false false IconvNull [Descriptor true c] [].

(** Blocks and states of the examples. *)
Definition bytes_block (bs : list byte) : block := Block true (map Some (bs ++ [0])).
Definition string_block (s : string) : block := bytes_block (bytes_of_string s).

(** The string [h\351] (ISO-8859-1) to convert, and [current] set to the
    name of its encoding. *)
Definition latin1_state : state :=
  State [bytes_block [104; 233]; string_block "ISO-8859-1"] empty_options
        None (Some (1%nat, 0)) false false IconvNull [] [].

(** The header value [charset= ] (with a space after the sign) as the
    only block of the heap. *)
Definition empty_charset_state : state :=
  State [string_block "charset= "] empty_options None None false false IconvNull [] [].

(** The header value of an HTML response. *)
Definition content_type_state : state :=
  State [string_block "text/html; charset=UTF-8"] empty_options None None false false
        IconvNull [] [].

(** The caller's string [A] in block 0, and a registry that holds
    [current = ISO-8859-1] and [remote = KOI8-R]. *)
Definition busy_registry_state : state :=
  State [string_block "A"; string_block "ISO-8859-1"; string_block "KOI8-R"] empty_options
        (Some (2%nat, 0)) (Some (1%nat, 0)) false false IconvNull [] [].

(** The string [a] to convert, and [current] naming an encoding whose
    conversion fails with an errno that the converter does not handle. *)
Definition failing_state : state :=
  State [bytes_block [97]; string_block "X-FAILING"] empty_options
        None (Some (1%nat, 0)) false false IconvNull [] [].

(** The string [h\351] to convert, with [opt.locale] set to [name]. *)
Definition locale_state (name : string) : state :=
  State [bytes_block [104; 233]; string_block name] (Options (Some (1%nat, 0)) None false)
        None None false false IconvNull [] [].

(** The host [h\351] in block 0, nothing configured, empty registry. *)
Definition initial_state_with_host : state :=
  State [bytes_block [104; 233]] empty_options None None false false IconvNull [] [].

(** The ASCII string [abc] to convert, and [current = ISO-8859-1]. *)
Definition ascii_state : state :=
  State [string_block "abc"; string_block "ISO-8859-1"] empty_options
        None (Some (1%nat, 0)) false false IconvNull [] [].

(** A registry with [current] and [remote] set, and [opt.locale] set to a
    string of its own in block 0. *)
Definition locale_registry_state : state :=
  State [string_block "KOI8-R"; string_block "ISO-8859-1"; string_block "UTF-8"]
        (Options (Some (0%nat, 0)) None true)
        (Some (2%nat, 0)) (Some (1%nat, 0)) false false IconvNull [] [].

(** A header value whose charset has a byte that is not ASCII. *)
Definition bad_charset_state : state :=
  State [bytes_block (bytes_of_string "charset=" ++ [233])] empty_options
        None None false false IconvNull [] [].

(** [latin1_state] with a descriptor for ISO-8859-1 to UTF-8 open. *)
Definition opened_latin1_state : state :=
  with_descriptors [Descriptor true latin1_to_utf8] latin1_state.

(** [opt.locale = ISO-8859-1] with its handle opened and cached. *)
Definition cached_locale_state : state :=
  with_locale2utf8 (IconvDesc 0)
    (with_descriptors [Descriptor true latin1_to_utf8] (locale_state "ISO-8859-1")).

(** An IDNA capability that rejects every host. *)
Definition IDNA_CONTAINS_NON_LDH : Z := 3.
Definition rejecting_env : environment :=
  Environment sample_provider None (fun s => (IDNA_CONTAINS_NON_LDH, [])).

(** ** Notions used in the statements *)

(** The converted output in the words of the specification: every
    character the conversion accepts is replaced by its transcoding, every
    byte it rejects as an invalid or incomplete sequence is passed through
    as it is; there is no output when the conversion fails otherwise. *)
Fixpoint spec_conversion (c : codec) (skip : nat) (inp : list byte) : option (list byte) :=
  match inp with
  | [] => Some []
  | b :: rest =>
      match skip with
      | S k => spec_conversion c k rest
      | O =>
          match c b rest with
          | Converted k o => option_map (app o) (spec_conversion c k rest)
          | IllegalSeq | Incomplete => option_map (cons b) (spec_conversion c 0 rest)
          | Failed _ => None
          end
      end
  end.

(** Everything but the heap and the log is the same in both states. *)
Definition same_globals (st st' : state) : Prop :=
  opt st' = opt st /\ remote st' = remote st /\ current st' = current st /\
  utf8_encode st' = utf8_encode st /\ ugly_no_encode st' = ugly_no_encode st /\
  locale2utf8 st' = locale2utf8 st /\ descriptors st' = descriptors st.

(** [h'] extends [h]: the blocks of [h] are all there, unchanged. *)
Definition heap_extends (h h' : heap) : Prop := take (length h) h' = h.

(** From [h] to [h'] the blocks below [n] are left as they were. *)
Definition above (n : nat) (h h' : heap) : Prop :=
  take n h' = take n h /\ (length h <= length h')%nat.

(** The cells of an output buffer: the bytes written so far, then [free]
    cells never written. *)
Definition buffer (written : list byte) (free : nat) : list cell :=
  map Some written ++ replicate free None.

(** [p] is what [xmalloc] returned for a block that is still allocated. *)
Definition owned (h : heap) (p : ptr) : Prop :=
  p.2 = 0 /\ exists cs, h !! p.1 = Some (Block true cs).

(** A registry field is NULL or owns a block that holds a string. *)
Definition field_ok (h : heap) (f : option ptr) : Prop :=
  match f with
  | None => True
  | Some p => owned h p /\ exists s, heap_cstring h p = Done s
  end.

(** The fields of the registry own their strings, and not the same one. *)
Definition registry_wf (st : state) : Prop :=
  field_ok (mem st) (remote st) /\ field_ok (mem st) (current st) /\
  (forall p q, remote st = Some p -> current st = Some q -> p.1 <> q.1).

(** [p] does not point into the block that the field [f] owns. *)
Definition apart (f : option ptr) (p : ptr) : Prop :=
  forall q, f = Some q -> p.1 <> q.1.

(** The heap once the block of the field [f] is released. *)
Definition mark_free (h : heap) (f : option ptr) : heap :=
  match f with
  | Some q =>
      match h !! q.1 with
      | Some blk => <[q.1 := Block false (cells blk)]> h
      | None => h
      end
  | None => h
  end.

(** [idn_encode] arrives at its call of [idna_to_ascii_8z] with [h] for
    host, in state [st1]: either the host was flagged as UTF-8 and is passed
    on as it is, or [remote_to_utf8] succeeded and [h] is what it stored. *)
Definition reaches_idna (E : environment) (fuel : nat) (host : ptr) (utf8_encoded : bool)
    (st : state) (h : ptr) (st1 : state) : Prop :=
  (utf8_encoded = true /\ h = host /\ st1 = st) \/
  (utf8_encoded = false /\ remote_to_utf8 E fuel host st = Done ((true, Some h), st1)).

(** In [h] the string at [c] is a copy of the caller's string at [a], in a
    block of its own: both read [w], and the copy still reads [w] after the
    caller overwrites a byte of its block or releases it. *)
Definition private_copy (h : heap) (c a : ptr) (w : list byte) : Prop :=
  c.1 <> a.1 /\ heap_cstring h c = Done w /\ heap_cstring h a = Done w /\
  (forall off v h', heap_store h (a.1, off) v = Done h' -> heap_cstring h' c = Done w) /\
  (forall h', heap_xfree h (a.1, 0) = Done h' -> heap_cstring h' c = Done w).

(** The block that the field [f] owned is no longer allocated in [h']. *)
Definition released (h' : heap) (f : option ptr) : Prop :=
  forall q, f = Some q -> exists cs, h' !! q.1 = Some (Block false cs).

(** Every string of [h] outside the block of the field [f] reads the same
    in [h']. *)
Definition others_kept (h h' : heap) (f : option ptr) : Prop :=
  forall r s, apart f r -> heap_cstring h r = Done s -> heap_cstring h' r = Done s.

(** Every block of [h] other than the one that the field [f] owned is the
    same in [h']. *)
Definition blocks_kept (h h' : heap) (f : option ptr) : Prop :=
  forall b, (b < length h)%nat -> (forall q, f = Some q -> b <> q.1) -> h' !! b = h !! b.

(** What a string setter stores for the argument [arg], from the heap [h]
    to the heap [h'], with [new] the new value of its field: NULL and no new
    block for a NULL argument; otherwise the one new block of [h'], which is
    a private copy of the string at [arg]. *)
Definition stored (h h' : heap) (arg new : option ptr) : Prop :=
  match arg with
  | None => new = None /\ length h' = length h
  | Some a =>
      exists w, new = Some (length h, 0) /\ length h' = S (length h) /\
                heap_cstring h a = Done w /\ private_copy h' (length h, 0) a w
  end.

(** Every string that can be read in [h] reads the same in [h']. *)
Definition strings_kept (h h' : heap) : Prop :=
  forall q s, heap_cstring h q = Done s -> heap_cstring h' q = Done s.

(** The block of [p] is allocated in [h]. *)
Definition allocated (h : heap) (p : ptr) : Prop :=
  exists cs, h !! p.1 = Some (Block true cs).

(** The errno values that the loop of [do_conversion] recovers from. *)
Definition handled (errno : Z) : bool :=
  (errno =? EINVAL) || (errno =? EILSEQ) || (errno =? E2BIG).

(** What one call of [do_conversion] may add to the log: the note about an
    invalid sequence at most once, and only if none was counted before
    ([first]); after it, on failure and only then, the unhandled errno. *)
Definition log_shape (first r : bool) (l : list log_msg) : Prop :=
  exists pre,
    (pre = [] \/ (first = true /\ pre = [LogInvalidSequence])) /\
    (if r then l = pre
     else exists e, handled e = false /\ l = pre ++ [LogUnhandledErrno e]).

(** How often the note about an invalid sequence occurs in a log. *)
Fixpoint invalid_notes (l : list log_msg) : nat :=
  match l with
  | [] => 0
  | LogInvalidSequence :: l' => S (invalid_notes l')
  | _ :: l' => invalid_notes l'
  end.

(** A byte that [check_encoding_name] lets pass. *)
Definition encoding_byte (c : byte) : Prop := 0 <= c < 128 /\ c_isspace c = false.

(** ** Facts about the heap *)

Lemma cstring_of_no_nul cs s : cstring_of cs = Done s -> Forall (fun c => c <> 0) s.
Proof.
  revert s; induction cs as [|[c|] cs IH]; intros s; simpl; try discriminate.
  destruct (Z.eqb_spec c 0) as [->|Hc].
  - intros [= <-]. constructor.
  - destruct (cstring_of cs) as [t| |]; simpl; try discriminate.
    intros [= <-]. constructor; [exact Hc | apply IH; reflexivity].
Qed.

Lemma cstring_of_literal s rest :
  Forall (fun c => c <> 0) s -> cstring_of (map Some (s ++ [0]) ++ rest) = Done s.
Proof.
  induction 1 as [|c s Hc _ IH]; simpl; [reflexivity|].
  destruct (Z.eqb_spec c 0) as [?|_]; [contradiction|].
  rewrite IH. reflexivity.
Qed.

Lemma heap_cstring_no_nul h p s : heap_cstring h p = Done s -> Forall (fun c => c <> 0) s.
Proof.
  unfold heap_cstring, live_cells.
  destruct (h !! p.1) as [[[] cs]|]; simpl; try discriminate.
  destruct (p.2 <? 0); [discriminate|]. apply cstring_of_no_nul.
Qed.

Lemma live_cells_app_old h blk b :
  (b < length h)%nat -> live_cells (h ++ [blk]) b = live_cells h b.
Proof. intros Hb. unfold live_cells. rewrite lookup_app_l by exact Hb. reflexivity. Qed.

Lemma live_cells_app_new h cs : live_cells (h ++ [Block true cs]) (length h) = Done cs.
Proof. unfold live_cells. rewrite list_lookup_middle by reflexivity. reflexivity. Qed.

Lemma live_cells_insert_other h b b' blk :
  b <> b' -> live_cells (<[b' := blk]> h) b = live_cells h b.
Proof. intros Hb. unfold live_cells. rewrite list_lookup_insert_ne by congruence. reflexivity. Qed.

Lemma live_cells_Done h b cs : live_cells h b = Done cs -> h !! b = Some (Block true cs).
Proof.
  unfold live_cells. destruct (h !! b) as [[[] cs']|]; try discriminate.
  intros [= ->]. reflexivity.
Qed.

Lemma live_cells_lt h b cs : live_cells h b = Done cs -> (b < length h)%nat.
Proof. intros H. apply live_cells_Done in H. eapply lookup_lt_Some, H. Qed.

Lemma heap_cstring_lt h p s : heap_cstring h p = Done s -> (p.1 < length h)%nat.
Proof.
  unfold heap_cstring. destruct (live_cells h p.1) eqn:Hl; simpl; try discriminate.
  intros _. eapply live_cells_lt, Hl.
Qed.

Lemma heap_cstring_app_old h blk p :
  (p.1 < length h)%nat -> heap_cstring (h ++ [blk]) p = heap_cstring h p.
Proof. intros Hp. unfold heap_cstring. rewrite live_cells_app_old by exact Hp. reflexivity. Qed.

Lemma heap_cstring_insert_other h p b' blk :
  p.1 <> b' -> heap_cstring (<[b' := blk]> h) p = heap_cstring h p.
Proof. intros Hp. unfold heap_cstring. rewrite live_cells_insert_other by exact Hp. reflexivity. Qed.

(** A duplicated string reads back as it was written. *)
Lemma heap_strdup_cstring h s :
  Forall (fun c => c <> 0) s ->
  heap_cstring (heap_strdup h s).2 (heap_strdup h s).1 = Done s.
Proof.
  intros Hs. unfold heap_strdup, alloc_cells, heap_cstring. simpl.
  rewrite live_cells_app_new. simpl.
  change (Z.to_nat 0) with 0%nat. rewrite drop_0.
  pose proof (cstring_of_literal s [] Hs) as H. rewrite app_nil_r in H. exact H.
Qed.

(** Releasing or overwriting one block leaves the strings of the others. *)
Lemma heap_xfree_cstring h q h' p :
  heap_xfree h q = Done h' -> p.1 <> q.1 -> heap_cstring h' p = heap_cstring h p.
Proof.
  unfold heap_xfree. destruct (h !! q.1) as [[[] cs]|]; try discriminate.
  destruct (q.2 =? 0); [|discriminate]. intros [= <-] Hp.
  apply heap_cstring_insert_other, Hp.
Qed.

Lemma heap_store_cstring h q c h' p :
  heap_store h q c = Done h' -> p.1 <> q.1 -> heap_cstring h' p = heap_cstring h p.
Proof.
  unfold heap_store. destruct (live_cells h q.1); simpl; try discriminate.
  destruct (_ || _); [discriminate|]. intros [= <-] Hp.
  apply heap_cstring_insert_other, Hp.
Qed.

Lemma above_refl n h : above n h h.
Proof. split; [reflexivity | lia]. Qed.

Lemma above_trans n h1 h2 h3 : above n h1 h2 -> above n h2 h3 -> above n h1 h3.
Proof. intros [E1 L1] [E2 L2]. split; [congruence | lia]. Qed.

Lemma above_insert n (h : heap) b blk : (n <= b)%nat -> above n h (<[b := blk]> h).
Proof.
  intros Hb. split; [apply take_insert_ge, Hb | rewrite length_insert; lia].
Qed.

Lemma above_alloc n (h : heap) cs : (n <= length h)%nat -> above n h (alloc_cells h cs).2.
Proof.
  intros Hn. unfold alloc_cells; simpl. split.
  - apply take_app_le, Hn.
  - rewrite length_app; simpl; lia.
Qed.

Lemma heap_store_above n h p c h' :
  heap_store h p c = Done h' -> (n <= p.1)%nat -> above n h h'.
Proof.
  unfold heap_store. destruct (live_cells h p.1); simpl; try discriminate.
  destruct (_ || _); [discriminate|]. intros [= <-] Hp. apply above_insert, Hp.
Qed.

Lemma heap_store_bytes_above n bs : forall h p h',
  heap_store_bytes h p bs = Done h' -> (n <= p.1)%nat -> above n h h'.
Proof.
  induction bs as [|c bs IH]; intros h p h'; simpl.
  - intros [= <-] _. apply above_refl.
  - destruct (heap_store h p c) as [h1| |] eqn:Hst; simpl; try discriminate.
    intros Hrest Hp. eapply above_trans.
    + eapply heap_store_above; eassumption.
    + eapply IH; [exact Hrest | exact Hp].
Qed.

Lemma heap_memcpy_above n h dst src k h' :
  heap_memcpy h dst src k = Done h' -> (n <= dst.1)%nat -> above n h h'.
Proof.
  unfold heap_memcpy. destruct (live_cells h src.1); simpl; try discriminate.
  destruct (live_cells h dst.1); simpl; try discriminate.
  destruct (_ || _); [discriminate|]. intros [= <-] Hp. apply above_insert, Hp.
Qed.

Lemma heap_xfree_above n h p h' :
  heap_xfree h p = Done h' -> (n <= p.1)%nat -> above n h h'.
Proof.
  unfold heap_xfree. destruct (h !! p.1) as [[[] cs]|]; try discriminate.
  destruct (p.2 =? 0); [|discriminate]. intros [= <-] Hp. apply above_insert, Hp.
Qed.

(** Writes into a block leave every block below it as it was; [iconv]
    writes at its cursor only and keeps the cursor in its block. *)
Lemma iconv_chars_above n c inp : forall skip out outlen h r inp' out' outlen' h',
  iconv_chars c skip inp out outlen h = Done (r, inp', out', outlen', h') ->
  (n <= out.1)%nat -> above n h h' /\ out'.1 = out.1.
Proof.
  induction inp as [|b rest IH]; intros skip out outlen h r inp' out' outlen' h'; simpl.
  - intros [= <- <- <- <- <-] _. split; [apply above_refl | reflexivity].
  - destruct skip as [|k]; [|apply IH].
    destruct (c b rest) as [k o| | |e].
    + destruct (outlen <? Z.of_nat (length o)).
      * intros [= <- <- <- <- <-] _. split; [apply above_refl | reflexivity].
      * destruct (heap_store_bytes h out o) as [h1| |] eqn:Hst; simpl; try discriminate.
        intros Hrest Hout.
        apply IH in Hrest; [|exact Hout]. destruct Hrest as [Hab Hblk].
        split; [|exact Hblk].
        eapply above_trans; [|exact Hab]. eapply heap_store_bytes_above; eassumption.
    + intros [= <- <- <- <- <-] _. split; [apply above_refl | reflexivity].
    + intros [= <- <- <- <- <-] _. split; [apply above_refl | reflexivity].
    + intros [= <- <- <- <- <-] _. split; [apply above_refl | reflexivity].
Qed.

(** ** Facts about the monad *)

Lemma bind_Done {A B} (m : M A) (k : A -> M B) st b st' :
  (m ≫= k) st = Done (b, st') ->
  exists a st1, m st = Done (a, st1) /\ k a st1 = Done (b, st').
Proof.
  unfold mbind, M_bind. destruct (m st) as [[a st1]| |]; try discriminate. eauto.
Qed.

Lemma bind_eq {A B} (m : M A) (k : A -> M B) st a st1 :
  m st = Done (a, st1) -> (m ≫= k) st = k a st1.
Proof. intros H. unfold mbind, M_bind. rewrite H. reflexivity. Qed.

Lemma heap_read_Done {A} (f : heap -> outcome A) st a st' :
  heap_read f st = Done (a, st') -> f (mem st) = Done a /\ st' = st.
Proof.
  unfold heap_read. destruct (f (mem st)); try discriminate. intros [= <- <-]. auto.
Qed.

Lemma heap_write_Done f st u st' :
  heap_write f st = Done (u, st') -> exists h, f (mem st) = Done h /\ st' = with_mem h st.
Proof.
  unfold heap_write. destruct (f (mem st)) as [h| |]; try discriminate.
  intros [= <- <-]. eauto.
Qed.

Lemma heap_new_Done f st p st' :
  heap_new f st = Done (p, st') -> p = (f (mem st)).1 /\ st' = with_mem (f (mem st)).2 st.
Proof.
  unfold heap_new. destruct (f (mem st)) as [q h]. intros [= <- <-]. auto.
Qed.

Lemma store_Done p c st u st' :
  store p c st = Done (u, st') ->
  exists h, heap_store (mem st) p c = Done h /\ st' = with_mem h st.
Proof. apply heap_write_Done. Qed.

Lemma xfree_Done p st u st' :
  xfree p st = Done (u, st') -> exists h, heap_xfree (mem st) p = Done h /\ st' = with_mem h st.
Proof. apply heap_write_Done. Qed.

Lemma memcpy_Done dst src n st u st' :
  memcpy dst src n st = Done (u, st') ->
  exists h, heap_memcpy (mem st) dst src n = Done h /\ st' = with_mem h st.
Proof. apply heap_write_Done. Qed.

Lemma xmalloc_Done n st p st' :
  xmalloc n st = Done (p, st') ->
  p = (length (mem st), 0) /\ st' = with_mem (heap_xmalloc (mem st) n).2 st.
Proof. unfold xmalloc. intros H. apply heap_new_Done in H. exact H. Qed.

Lemma strdup_bytes_Done s st p st' :
  strdup_bytes s st = Done (p, st') ->
  p = (length (mem st), 0) /\ st' = with_mem (heap_strdup (mem st) s).2 st.
Proof. unfold strdup_bytes. intros H. apply heap_new_Done in H. exact H. Qed.

Lemma cstring_Done p st s st' :
  cstring p st = Done (s, st') -> heap_cstring (mem st) p = Done s /\ st' = st.
Proof. apply heap_read_Done. Qed.

Lemma same_globals_refl st : same_globals st st.
Proof. repeat split. Qed.

Lemma same_globals_trans st1 st2 st3 :
  same_globals st1 st2 -> same_globals st2 st3 -> same_globals st1 st3.
Proof. unfold same_globals. intuition congruence. Qed.

Lemma same_globals_mem h st : same_globals st (with_mem h st).
Proof. repeat split. Qed.

Lemma same_globals_log l st : same_globals st (with_log l st).
Proof. repeat split. Qed.

Lemma iconv_Done cd inp out outlen st r st' :
  iconv cd inp out outlen st = Done (r, st') ->
  (r = (IconvFail EBADF, inp, out, outlen) /\ st' = st) \/
  (exists id c h, cd = IconvDesc id /\ descriptors st !! id = Some (Descriptor true c) /\
     iconv_chars c 0 inp out outlen (mem st) = Done (r, h) /\ st' = with_mem h st).
Proof.
  unfold iconv. destruct cd as [| |id]; try (intros [= <- <-]; left; auto).
  destruct (descriptors st !! id) as [[[] c]|] eqn:Hd; try (intros [= <- <-]; left; auto).
  destruct (iconv_chars c 0 inp out outlen (mem st)) as [[[[[r0 i0] o0] l0] h]| |] eqn:Hc;
    try discriminate.
  intros [= <- <-]. right. exists id, c, h. auto.
Qed.

(** ** The converter touches nothing but its own buffers *)

Lemma iconv_frame n cd inp out outlen st r inp' out' outlen' st' :
  iconv cd inp out outlen st = Done ((r, inp', out', outlen'), st') ->
  (n <= out.1)%nat ->
  same_globals st st' /\ above n (mem st) (mem st') /\ out'.1 = out.1.
Proof.
  intros H Hout. apply iconv_Done in H as [[[= -> -> -> ->] ->]|(id & c & h & _ & _ & Hc & ->)].
  - split; [apply same_globals_refl|]. split; [apply above_refl | reflexivity].
  - apply iconv_chars_above with (n := n) in Hc as [Hab Hblk]; [|exact Hout].
    split; [apply same_globals_mem|]. split; [exact Hab | exact Hblk].
Qed.

Lemma do_conversion_loop_frame n cd fuel :
  forall inp out outlen len done s invalid tooshort st r p st',
  do_conversion_loop fuel cd inp out outlen len done s invalid tooshort st
    = Done ((r, p), st') ->
  (n <= s.1)%nat -> out.1 = s.1 -> (n <= length (mem st))%nat ->
  same_globals st st' /\ above n (mem st) (mem st') /\ (n <= p.1)%nat.
Proof.
  induction fuel as [|fuel IH];
    intros inp out outlen len done s invalid tooshort st r p st' H Hs Hout Hn; simpl in H.
  - discriminate.
  - apply bind_Done in H as ([[[r0 inp'] out'] outlen'] & st1 & Hic & H).
    apply iconv_frame with (n := n) in Hic as (G1 & A1 & Hblk); [|lia].
    destruct r0 as [|errno].
    + apply bind_Done in H as ([] & st2 & Hst & H).
      apply store_Done in Hst as (h & Hst & ->).
      injection H as <- <- <-.
      apply heap_store_above with (n := n) in Hst; [|exact Hs].
      split; [eapply same_globals_trans; [exact G1 | apply same_globals_mem]|].
      split; [eapply above_trans; [exact A1 | exact Hst] | exact Hs].
    + destruct ((errno =? EINVAL) || (errno =? EILSEQ)).
      * apply bind_Done in H as ([] & st2 & Hlog & H).
        assert (same_globals st1 st2 /\ mem st2 = mem st1) as [G2 M2].
        { destruct (invalid =? 0); injection Hlog as <-;
            (split; [first [apply same_globals_log | apply same_globals_refl] | reflexivity]). }
        destruct inp' as [|c inp'']; [discriminate|].
        apply bind_Done in H as ([] & st3 & Hst & H).
        apply store_Done in Hst as (h & Hst & ->).
        apply heap_store_above with (n := n) in Hst; [|lia].
        assert (Hlen : (n <= length h)%nat) by (destruct A1, Hst; rewrite M2 in *; lia).
        apply IH in H as (G3 & A3 & Hp); [|exact Hs|simpl; lia|exact Hlen].
        split; [eauto using same_globals_trans, same_globals_mem|].
        split; [|exact Hp].
        eapply above_trans; [exact A1|]. rewrite <- M2.
        eapply above_trans; [exact Hst | exact A3].
      * destruct (errno =? E2BIG).
        -- apply bind_Done in H as (new & st2 & Hnew & H).
           apply xmalloc_Done in Hnew as [-> ->].
           apply bind_Done in H as ([] & st3 & Hcp & H).
           apply memcpy_Done in Hcp as (h3 & Hcp & ->).
           apply bind_Done in H as ([] & st4 & Hfr & H).
           apply xfree_Done in Hfr as (h4 & Hfr & ->).
           simpl in Hcp, Hfr.
           assert (Hlen : (n <= length (mem st1))%nat) by (destruct A1; lia).
           apply heap_memcpy_above with (n := n) in Hcp; [|simpl; lia].
           apply heap_xfree_above with (n := n) in Hfr; [|exact Hs].
           apply IH in H as (G5 & A5 & Hp);
             [|simpl; lia|reflexivity|destruct Hcp, Hfr; simpl in *; rewrite length_app in *; lia].
           split; [eauto using same_globals_trans, same_globals_mem|].
           split; [|exact Hp].
           eapply above_trans; [exact A1|].
           eapply above_trans; [apply (above_alloc n (mem st1)), Hlen|].
           eapply above_trans; [exact Hcp|].
           eapply above_trans; [exact Hfr | exact A5].
        -- apply bind_Done in H as ([] & st2 & Hlog & H).
           injection Hlog as <-. injection H as <- <- <-.
           split; [eauto using same_globals_trans, same_globals_log|].
           split; [exact A1 | lia].
Qed.

Lemma do_conversion_frame fuel cd inp st r p st' :
  do_conversion fuel cd inp st = Done ((r, p), st') ->
  same_globals st st' /\ heap_extends (mem st) (mem st') /\ (length (mem st) <= p.1)%nat.
Proof.
  unfold do_conversion. intros H.
  apply bind_Done in H as (s & st1 & Hnew & H).
  apply xmalloc_Done in Hnew as [-> ->].
  apply do_conversion_loop_frame with (n := length (mem st)) in H as (G & A & Hp);
    [|simpl; lia|reflexivity|simpl; rewrite length_app; lia].
  split; [eauto using same_globals_trans, same_globals_mem|].
  split; [|exact Hp].
  unfold heap_extends. destruct A as [A _]. rewrite A. simpl. apply take_app_length.
Qed.

Lemma bind_gets {A B} (f : state -> A) (k : A -> M B) st : (gets f ≫= k) st = k (f st) st.
Proof. reflexivity. Qed.

Lemma bind_modify {B} (f : state -> state) (k : unit -> M B) st :
  (modify f ≫= k) st = k tt (f st).
Proof. reflexivity. Qed.

Lemma bind_mret {A B} (a : A) (k : A -> M B) st : (mret a ≫= k) st = k a st.
Proof. reflexivity. Qed.

Lemma iconv_open_Done E tocode fromcode st cd st' :
  iconv_open E tocode fromcode st = Done (cd, st') ->
  exists name, heap_cstring (mem st) fromcode = Done name /\
    match iconv_provider E tocode name with
    | None => cd = IconvInvalid /\ st' = st
    | Some c => cd = IconvDesc (length (descriptors st)) /\
                st' = with_descriptors (descriptors st ++ [Descriptor true c]) st
    end.
Proof.
  unfold iconv_open. intros H.
  apply bind_Done in H as (name & st1 & Hname & H).
  apply cstring_Done in Hname as [Hname ->].
  exists name. split; [exact Hname|].
  destruct (iconv_provider E tocode name) as [c|].
  - rewrite bind_gets, bind_modify in H. injection H as <- <-. auto.
  - injection H as <- <-. auto.
Qed.

(** ** The remote-to-UTF-8 transcoder *)

(** C5.  [remote_to_utf8] takes its source encoding from the configured
    override [opt.encoding_remote] if that is set, else from the registry's
    [current], and returns false at once, touching nothing, when neither is
    set.  With a source encoding it asks for a conversion from that encoding
    to UTF-8; when the pair is not supported it returns false with no handle
    opened, and otherwise the handle is a fresh descriptor, the converter is
    run on it over the bytes of [str], and when the call returns that
    descriptor is closed and every other descriptor is as before. *)
Theorem remote_to_utf8_source_and_handle E fuel str st :
  let source := match encoding_remote (opt st) with
                | Some r => Some r
                | None => current st
                end in
  (source = None -> remote_to_utf8 E fuel str st = Done ((false, None), st)) /\
  (forall r res st',
     source = Some r ->
     remote_to_utf8 E fuel str st = Done (res, st') ->
     exists name,
       heap_cstring (mem st) r = Done name /\
       match iconv_provider E (bytes_of_string "UTF-8") name with
       | None => res = (false, None) /\ st' = st
       | Some c =>
           let cd := IconvDesc (length (descriptors st)) in
           let opened := with_descriptors (descriptors st ++ [Descriptor true c]) st in
           (exists inp ok new st2,
              heap_cstring (mem st) str = Done inp /\
              do_conversion fuel cd inp opened = Done ((ok, new), st2) /\
              res.2 = Some new) /\
           descriptors st' = descriptors st ++ [Descriptor false c]
       end).
Proof.
  intros source. unfold remote_to_utf8. rewrite !bind_gets. fold source. split.
  - intros ->. reflexivity.
  - intros r res st' -> H.
    apply bind_Done in H as (cd & st1 & Hopen & H).
    apply iconv_open_Done in Hopen as (name & Hname & Hprov).
    exists name. split; [exact Hname|].
    destruct (iconv_provider E (bytes_of_string "UTF-8") name) as [c|].
    + destruct Hprov as [-> ->].
      apply bind_Done in H as (inp & st2 & Hinp & H).
      apply cstring_Done in Hinp as [Hinp ->].
      apply bind_Done in H as ([ok new] & st3 & Hconv & H).
      pose proof (do_conversion_frame _ _ _ _ _ _ _ Hconv) as (G & _ & _).
      unfold iconv_close in H. rewrite bind_modify in H.
      apply bind_Done in H as (d & st4 & Hcmp & H).
      unfold strcmp in Hcmp. apply heap_read_Done in Hcmp as [_ ->].
      assert (Hds : descriptors st3 = descriptors st ++ [Descriptor true c]).
      { destruct G as (_ & _ & _ & _ & _ & _ & ->). reflexivity. }
      assert (Hclosed : close_descriptor (length (descriptors st)) (descriptors st3)
                        = descriptors st ++ [Descriptor false c]).
      { rewrite Hds. unfold close_descriptor.
        rewrite list_lookup_middle by reflexivity. simpl.
        rewrite insert_app_r_alt by lia. rewrite Nat.sub_diag. reflexivity. }
      split.
      * exists inp, ok, new, st3. split; [exact Hinp|]. split; [exact Hconv|].
        destruct (d =? 0).
        -- apply bind_Done in H as ([] & st5 & _ & H). injection H as <- <-. reflexivity.
        -- injection H as <- <-. reflexivity.
      * destruct (d =? 0).
        -- apply bind_Done in H as ([] & st5 & Hfree & H).
           apply xfree_Done in Hfree as (h & _ & ->).
           injection H as <- <-. simpl. exact Hclosed.
        -- injection H as <- <-. simpl. exact Hclosed.
    + destruct Hprov as [-> ->]. injection H as <- <-. auto.
Qed.

(** ** The locale transcoder *)

Lemma iconv_open_mem E tocode fromcode st cd st' :
  iconv_open E tocode fromcode st = Done (cd, st') -> mem st' = mem st.
Proof.
  intros H. apply iconv_open_Done in H as (name & _ & H).
  destruct (iconv_provider E tocode name); destruct H as [_ ->]; reflexivity.
Qed.

Lemma open_locale_to_utf8_mem E st opened st' :
  open_locale_to_utf8 E st = Done (opened, st') -> mem st' = mem st.
Proof.
  unfold open_locale_to_utf8. rewrite bind_gets.
  destruct (locale2utf8 st); try (intros [= <- <-]; reflexivity).
  rewrite bind_gets. intros H.
  apply bind_Done in H as ([] & st1 & Hdef & H).
  assert (M1 : mem st1 = mem st).
  { destruct (locale (opt st)).
    - injection Hdef as <-. reflexivity.
    - unfold logprintf, find_locale in Hdef.
      rewrite bind_modify, bind_mret in Hdef. injection Hdef as <-. reflexivity. }
  rewrite bind_gets in H. destruct (locale (opt st1)) as [l|].
  - apply bind_Done in H as (cd & st2 & Hopen & H).
    apply iconv_open_mem in Hopen. rewrite bind_modify in H.
    destruct cd.
    + injection H as <- <-. simpl. congruence.
    + apply bind_Done in H as (from & st3 & Hfrom & H).
      apply cstring_Done in Hfrom as [_ ->].
      unfold logprintf in H. rewrite !bind_modify in H.
      injection H as <- <-. simpl. congruence.
    + injection H as <- <-. simpl. congruence.
  - injection H as <- <-. exact M1.
Qed.

(** C7.  [locale_to_utf8] gives back [str] itself, with the state as it
    was, when [opt.locale] equals "utf-8" up to case; it gives back [str]
    when the handle cannot be opened, and when the conversion fails.  When
    what it returns is not [str], the handle was opened and the conversion
    succeeded, and the result is the buffer the conversion allocated, which
    did not exist before the call. *)
Theorem locale_to_utf8_passthrough E fuel str st :
  (forall l,
     locale (opt st) = Some l ->
     heap_strcasecmp (mem st) l (bytes_of_string "utf-8") = Done 0 ->
     locale_to_utf8 E fuel str st = Done (str, st)) /\
  (forall l d st1,
     locale (opt st) = Some l ->
     heap_strcasecmp (mem st) l (bytes_of_string "utf-8") = Done d -> d <> 0 ->
     open_locale_to_utf8 E st = Done (false, st1) ->
     locale_to_utf8 E fuel str st = Done (str, st1)) /\
  (forall l d st1 inp new st2,
     locale (opt st) = Some l ->
     heap_strcasecmp (mem st) l (bytes_of_string "utf-8") = Done d -> d <> 0 ->
     open_locale_to_utf8 E st = Done (true, st1) ->
     heap_cstring (mem st1) str = Done inp ->
     do_conversion fuel (locale2utf8 st1) inp st1 = Done ((false, new), st2) ->
     locale_to_utf8 E fuel str st = Done (str, st2)) /\
  (forall p st',
     locale_to_utf8 E fuel str st = Done (p, st') -> p <> str ->
     exists st1 inp,
       open_locale_to_utf8 E st = Done (true, st1) /\
       heap_cstring (mem st1) str = Done inp /\
       do_conversion fuel (locale2utf8 st1) inp st1 = Done ((true, p), st') /\
       (length (mem st) <= p.1)%nat).
Proof.
  unfold locale_to_utf8. rewrite bind_gets. repeat split.
  - intros l -> Hcmp. unfold strcasecmp, mbind, M_bind, heap_read. rewrite Hcmp. reflexivity.
  - intros l d st1 -> Hcmp Hd Hopen.
    unfold strcasecmp, mbind, M_bind, heap_read. rewrite Hcmp.
    destruct (Z.eqb_spec d 0) as [?|_]; [contradiction|].
    fold (@mbind M _). unfold mbind, M_bind. rewrite Hopen. reflexivity.
  - intros l d st1 inp new st2 -> Hcmp Hd Hopen Hinp Hconv.
    unfold strcasecmp, mbind, M_bind, heap_read. rewrite Hcmp.
    destruct (Z.eqb_spec d 0) as [?|_]; [contradiction|].
    rewrite Hopen. simpl. unfold gets, cstring, heap_read. rewrite Hinp, Hconv. reflexivity.
  - intros p st' H Hp.
    apply bind_Done in H as (d & st0 & Hcmp & H).
    assert (st0 = st) as ->.
    { unfold strcasecmp in Hcmp. destruct (locale (opt st)); [|discriminate].
      apply heap_read_Done in Hcmp as [_ ->]. reflexivity. }
    destruct (d =? 0).
    { injection H as <- <-. contradiction. }
    apply bind_Done in H as (opened & st1 & Hopen & H).
    destruct opened; simpl in H.
    2:{ injection H as <- <-. contradiction. }
    rewrite bind_gets in H.
    apply bind_Done in H as (inp & st2 & Hinp & H).
    apply cstring_Done in Hinp as [Hinp ->].
    apply bind_Done in H as ([ok new] & st3 & Hconv & H).
    destruct ok.
    2:{ injection H as <- <-. contradiction. }
    injection H as <- <-.
    exists st1, inp. split; [exact Hopen|]. split; [exact Hinp|]. split; [exact Hconv|].
    apply do_conversion_frame in Hconv as (_ & _ & Hfresh).
    apply open_locale_to_utf8_mem in Hopen. rewrite Hopen in Hfresh. exact Hfresh.
Qed.

(** ** The IDN codec *)

Lemma idn_to_ascii_Done E h st res st' :
  idn_to_ascii E h st = Done (res, st') ->
  exists s, heap_cstring (mem st) h = Done s /\
    let '(ret, output) := idna_to_ascii_8z E s in
    if ret =? IDNA_SUCCESS
    then res = Some (length (mem st), 0) /\ st' = with_mem (mem st ++ [bytes_block output]) st
    else res = None /\ st' = with_log (log st ++ [LogIdnEncodeFailed ret]) st.
Proof.
  unfold idn_to_ascii. intros H.
  apply bind_Done in H as (s & st1 & Hs & H).
  apply cstring_Done in Hs as [Hs ->].
  exists s. split; [exact Hs|].
  destruct (idna_to_ascii_8z E s) as [ret output].
  destruct (ret =? IDNA_SUCCESS); simpl in H.
  - apply bind_Done in H as (new & st2 & Hnew & H).
    apply strdup_bytes_Done in Hnew as [-> ->]. injection H as <- <-. auto.
  - unfold logprintf in H. rewrite bind_modify in H. injection H as <- <-. auto.
Qed.

Lemma idn_encode_reaches E fuel host utf8_encoded st h st1 :
  reaches_idna E fuel host utf8_encoded st h st1 ->
  idn_encode E fuel host utf8_encoded st = idn_to_ascii E h st1.
Proof.
  unfold idn_encode. intros [(-> & -> & ->)|[-> Hconv]]; simpl; [reflexivity|].
  unfold mbind, M_bind. rewrite Hconv. reflexivity.
Qed.

(** C8.  For a host not flagged as UTF-8, [idn_encode] first calls
    [remote_to_utf8] and returns NULL when that returns false.  For a host
    that arrives at the IDNA step, a status other than [IDNA_SUCCESS] is
    logged and NULL is returned; and whenever [idn_encode] returns a string,
    the IDNA step was reached, its status was [IDNA_SUCCESS], and the string
    is the freshly allocated output of the to-ASCII operation. *)
Theorem idn_encode_failures E fuel host utf8_encoded st :
  (forall new st1,
     utf8_encoded = false ->
     remote_to_utf8 E fuel host st = Done ((false, new), st1) ->
     idn_encode E fuel host utf8_encoded st = Done (None, st1)) /\
  (forall h st1 s,
     reaches_idna E fuel host utf8_encoded st h st1 ->
     heap_cstring (mem st1) h = Done s ->
     (idna_to_ascii_8z E s).1 <> IDNA_SUCCESS ->
     idn_encode E fuel host utf8_encoded st
       = Done (None, with_log (log st1 ++ [LogIdnEncodeFailed (idna_to_ascii_8z E s).1]) st1)) /\
  (forall p st',
     idn_encode E fuel host utf8_encoded st = Done (Some p, st') ->
     exists h st1 s,
       reaches_idna E fuel host utf8_encoded st h st1 /\
       heap_cstring (mem st1) h = Done s /\
       (idna_to_ascii_8z E s).1 = IDNA_SUCCESS /\
       p = (length (mem st1), 0) /\
       mem st' = mem st1 ++ [bytes_block (idna_to_ascii_8z E s).2]).
Proof.
  repeat split.
  - intros new st1 -> Hconv. unfold idn_encode. simpl.
    unfold mbind, M_bind. rewrite Hconv. reflexivity.
  - intros h st1 s Hreach Hs Hret.
    rewrite (idn_encode_reaches _ _ _ _ _ _ _ Hreach).
    unfold idn_to_ascii, mbind, M_bind, cstring, heap_read. rewrite Hs.
    destruct (idna_to_ascii_8z E s) as [ret output]. simpl in *.
    destruct (Z.eqb_spec ret IDNA_SUCCESS) as [?|_]; [contradiction|]. reflexivity.
  - intros p st' H.
    assert (exists h st1, reaches_idna E fuel host utf8_encoded st h st1 /\
                          idn_to_ascii E h st1 = Done (Some p, st')) as (h & st1 & Hreach & Hidn).
    { unfold idn_encode in H. destruct utf8_encoded; simpl in H.
      - exists host, st. split; [left; auto | exact H].
      - apply bind_Done in H as ([converted new] & st1 & Hconv & H).
        destruct converted; simpl in H; [|discriminate].
        destruct new as [h|]; [|discriminate].
        exists h, st1. split; [right; auto | exact H]. }
    exists h, st1.
    apply idn_to_ascii_Done in Hidn as (s & Hs & Hidn).
    exists s. split; [exact Hreach|]. split; [exact Hs|].
    destruct (idna_to_ascii_8z E s) as [ret output]. simpl.
    destruct (Z.eqb_spec ret IDNA_SUCCESS) as [Hret|_].
    + destruct Hidn as [[= ->] ->]. auto.
    + destruct Hidn as [[=] _].
Qed.

(** C9.  With [opt.locale] unset, [locale_to_utf8] hands the NULL pointer
    to [strcasecmp] before [open_locale_to_utf8] and its guard are reached:
    whatever the rest of the state, the call dereferences NULL. *)
Theorem locale_to_utf8_unset_locale E fuel str st :
  locale_to_utf8 E fuel str (with_opt (with_locale None (opt st)) st) = Fault NullDeref.
Proof. reflexivity. Qed.

(** ** The registry *)

Lemma release_owned st f :
  field_ok (mem st) f -> release f st = Done (tt, with_mem (mark_free (mem st) f) st).
Proof.
  destruct f as [q|]; simpl.
  - intros [[Hoff [cs Hcs]] _]. unfold xfree, heap_write, heap_xfree.
    rewrite Hcs, Hoff. reflexivity.
  - intros _. destruct st; reflexivity.
Qed.

Lemma duplicate_string st a w :
  heap_cstring (mem st) a = Done w ->
  duplicate (Some a) st
    = Done (Some (length (mem st), 0), with_mem (mem st ++ [bytes_block w]) st).
Proof.
  intros Hw. unfold duplicate, xstrdup, mbind, M_bind, cstring, heap_read.
  rewrite Hw. reflexivity.
Qed.

Lemma length_mark_free h f : length (mark_free h f) = length h.
Proof.
  destruct f as [q|]; simpl; [|reflexivity].
  destruct (h !! q.1); [apply length_insert | reflexivity].
Qed.

Lemma lookup_mark_free h f b :
  (forall q, f = Some q -> b <> q.1) -> mark_free h f !! b = h !! b.
Proof.
  destruct f as [q|]; simpl; [|reflexivity]. intros Hb.
  destruct (h !! q.1); [|reflexivity].
  apply list_lookup_insert_ne. specialize (Hb q eq_refl). congruence.
Qed.

Lemma heap_cstring_lookup h h' p : h' !! p.1 = h !! p.1 -> heap_cstring h' p = heap_cstring h p.
Proof. intros H. unfold heap_cstring, live_cells. rewrite H. reflexivity. Qed.

Lemma heap_cstring_mark_free h f p :
  apart f p -> heap_cstring (mark_free h f) p = heap_cstring h p.
Proof. intros Hp. apply heap_cstring_lookup, lookup_mark_free, Hp. Qed.

Lemma heap_cstring_fresh h w :
  Forall (fun c => c <> 0) w -> heap_cstring (h ++ [bytes_block w]) (length h, 0) = Done w.
Proof. intros Hw. exact (heap_strdup_cstring h w Hw). Qed.

Lemma set_current_charset_copy st a w :
  field_ok (mem st) (current st) -> heap_cstring (mem st) a = Done w -> apart (current st) a ->
  set_current_charset (Some a) st
    = Done (tt, with_current (Some (length (mem st), 0))
                  (with_mem (mark_free (mem st) (current st) ++ [bytes_block w]) st)).
Proof.
  intros Hold Hw Ha. unfold set_current_charset. rewrite bind_gets.
  unfold mbind at 1, M_bind at 1. rewrite (release_owned _ _ Hold).
  unfold mbind, M_bind. rewrite (duplicate_string _ a w).
  - simpl. rewrite length_mark_free. reflexivity.
  - simpl. rewrite heap_cstring_mark_free by exact Ha. exact Hw.
Qed.

Lemma set_current_charset_null st :
  field_ok (mem st) (current st) ->
  set_current_charset None st
    = Done (tt, with_current None (with_mem (mark_free (mem st) (current st)) st)).
Proof.
  intros Hold. unfold set_current_charset. rewrite bind_gets.
  unfold mbind at 1, M_bind at 1. rewrite (release_owned _ _ Hold). reflexivity.
Qed.

Lemma set_remote_charset_copy st a w :
  field_ok (mem st) (remote st) -> heap_cstring (mem st) a = Done w -> apart (remote st) a ->
  set_remote_charset (Some a) st
    = Done (tt, with_remote (Some (length (mem st), 0))
                  (with_mem (mark_free (mem st) (remote st) ++ [bytes_block w]) st)).
Proof.
  intros Hold Hw Ha. unfold set_remote_charset. rewrite bind_gets.
  unfold mbind at 1, M_bind at 1. rewrite (release_owned _ _ Hold).
  unfold mbind, M_bind. rewrite (duplicate_string _ a w).
  - simpl. rewrite length_mark_free. reflexivity.
  - simpl. rewrite heap_cstring_mark_free by exact Ha. exact Hw.
Qed.

Lemma set_remote_charset_null st :
  field_ok (mem st) (remote st) ->
  set_remote_charset None st
    = Done (tt, with_remote None (with_mem (mark_free (mem st) (remote st)) st)).
Proof.
  intros Hold. unfold set_remote_charset. rewrite bind_gets.
  unfold mbind at 1, M_bind at 1. rewrite (release_owned _ _ Hold). reflexivity.
Qed.

Lemma set_remote_as_current_copy st c w :
  field_ok (mem st) (remote st) -> current st = Some c ->
  heap_cstring (mem st) c = Done w -> apart (remote st) c ->
  set_remote_as_current st
    = Done (tt, with_remote (Some (length (mem st), 0))
                  (with_mem (mark_free (mem st) (remote st) ++ [bytes_block w]) st)).
Proof.
  intros Hold Hc Hw Ha. unfold set_remote_as_current. rewrite bind_gets.
  unfold mbind at 1, M_bind at 1. rewrite (release_owned _ _ Hold).
  rewrite bind_gets. simpl. rewrite Hc.
  unfold mbind, M_bind. rewrite (duplicate_string _ c w).
  - simpl. rewrite length_mark_free. reflexivity.
  - simpl. rewrite heap_cstring_mark_free by exact Ha. exact Hw.
Qed.

Lemma set_remote_as_current_null st :
  field_ok (mem st) (remote st) -> current st = None ->
  set_remote_as_current st
    = Done (tt, with_remote None (with_mem (mark_free (mem st) (remote st)) st)).
Proof.
  intros Hold Hc. unfold set_remote_as_current. rewrite bind_gets.
  unfold mbind at 1, M_bind at 1. rewrite (release_owned _ _ Hold).
  rewrite bind_gets. simpl. rewrite Hc. reflexivity.
Qed.

(** A field of the registry stays in order when the block of another
    field is released, and when a block is appended. *)
Lemma field_ok_mark_free h f g :
  field_ok h f -> (forall p q, f = Some p -> g = Some q -> p.1 <> q.1) ->
  field_ok (mark_free h g) f.
Proof.
  destruct f as [p|]; simpl; [|auto].
  intros [[Hoff [cs Hcs]] [s Hs]] Hpq.
  assert (Hsame : mark_free h g !! p.1 = h !! p.1).
  { apply lookup_mark_free. intros q Hq. eapply Hpq; [reflexivity | exact Hq]. }
  split.
  - split; [exact Hoff|]. exists cs. congruence.
  - exists s. rewrite (heap_cstring_lookup h) by exact Hsame. exact Hs.
Qed.

Lemma field_ok_app h f blk : field_ok h f -> field_ok (h ++ [blk]) f.
Proof.
  destruct f as [p|]; simpl; [|auto].
  intros [[Hoff [cs Hcs]] [s Hs]].
  assert (Hlt : (p.1 < length h)%nat) by (eapply lookup_lt_Some, Hcs).
  split.
  - split; [exact Hoff|]. exists cs. rewrite lookup_app_l by exact Hlt. exact Hcs.
  - exists s. rewrite heap_cstring_app_old by exact Hlt. exact Hs.
Qed.

Lemma field_ok_survives h f g blk :
  field_ok h f -> (forall p q, f = Some p -> g = Some q -> p.1 <> q.1) ->
  field_ok (mark_free h g ++ [blk]) f.
Proof. intros Hf Hpq. apply field_ok_app, field_ok_mark_free; assumption. Qed.

Lemma field_ok_fresh h w :
  Forall (fun c => c <> 0) w -> field_ok (h ++ [bytes_block w]) (Some (length h, 0)).
Proof.
  intros Hw. split.
  - split; [reflexivity|]. eexists. simpl. apply list_lookup_middle. reflexivity.
  - exists w. apply heap_cstring_fresh, Hw.
Qed.

Lemma field_ok_below h f p : field_ok h f -> f = Some p -> (p.1 < length h)%nat.
Proof. intros Hf ->. destruct Hf as [[_ [cs Hcs]] _]. eapply lookup_lt_Some, Hcs. Qed.

(** The registry is in order at process start and every setter keeps it
    so, as long as the strings it is given are the caller's own. *)
Lemma registry_wf_initial : registry_wf initial_state.
Proof. split; [exact I|]. split; [exact I|]. intros p q [=]. Qed.

Lemma registry_wf_set_current st a w st' :
  registry_wf st -> heap_cstring (mem st) a = Done w -> apart (current st) a ->
  set_current_charset (Some a) st = Done (tt, st') -> registry_wf st'.
Proof.
  intros (Hrem & Hcur & Hdis) Hw Ha.
  rewrite (set_current_charset_copy st a w Hcur Hw Ha). intros [= <-].
  pose proof (heap_cstring_no_nul _ _ _ Hw) as Hnul.
  split; [|split]; simpl.
  - apply field_ok_survives; assumption.
  - rewrite <- (length_mark_free (mem st) (current st)). apply field_ok_fresh, Hnul.
  - intros p q Hp [= <-]. simpl. pose proof (field_ok_below _ _ _ Hrem Hp). lia.
Qed.

Lemma registry_wf_clear_current st st' :
  registry_wf st -> set_current_charset None st = Done (tt, st') -> registry_wf st'.
Proof.
  intros (Hrem & Hcur & Hdis). rewrite (set_current_charset_null st Hcur). intros [= <-].
  split; [|split]; simpl.
  - apply field_ok_mark_free; assumption.
  - exact I.
  - intros p q _ [=].
Qed.

Lemma registry_wf_set_remote st a w st' :
  registry_wf st -> heap_cstring (mem st) a = Done w -> apart (remote st) a ->
  set_remote_charset (Some a) st = Done (tt, st') -> registry_wf st'.
Proof.
  intros (Hrem & Hcur & Hdis) Hw Ha.
  rewrite (set_remote_charset_copy st a w Hrem Hw Ha). intros [= <-].
  pose proof (heap_cstring_no_nul _ _ _ Hw) as Hnul.
  split; [|split]; simpl.
  - rewrite <- (length_mark_free (mem st) (remote st)). apply field_ok_fresh, Hnul.
  - apply field_ok_survives; [exact Hcur|]. intros p q Hp Hq Heq. exact (Hdis q p Hq Hp (eq_sym Heq)).
  - intros p q [= <-] Hq. simpl. pose proof (field_ok_below _ _ _ Hcur Hq). lia.
Qed.

Lemma registry_wf_set_remote_as_current st st' :
  registry_wf st -> set_remote_as_current st = Done (tt, st') -> registry_wf st'.
Proof.
  intros (Hrem & Hcur & Hdis).
  assert (Hcur' : forall p q, current st = Some p -> remote st = Some q -> p.1 <> q.1).
  { intros p q Hp Hq Heq. exact (Hdis q p Hq Hp (eq_sym Heq)). }
  destruct (current st) as [c|] eqn:Hc.
  - destruct Hcur as [Hown [w Hw]].
    assert (Ha : apart (remote st) c) by (intros q Hq; exact (Hcur' c q eq_refl Hq)).
    rewrite (set_remote_as_current_copy st c w Hrem Hc Hw Ha). intros [= <-].
    pose proof (heap_cstring_no_nul _ _ _ Hw) as Hnul.
    split; [|split]; simpl.
    + rewrite <- (length_mark_free (mem st) (remote st)). apply field_ok_fresh, Hnul.
    + rewrite Hc. apply (field_ok_survives (mem st) (Some c)); [split; eauto|].
      intros p q [= <-] Hq. exact (Hcur' c q eq_refl Hq).
    + rewrite Hc. intros p q [= <-] [= <-]. simpl.
      destruct Hown as [_ [cs Hcs]]. apply lookup_lt_Some in Hcs. lia.
  - rewrite (set_remote_as_current_null st Hrem Hc). intros [= <-].
    split; [|split]; simpl.
    + exact I.
    + rewrite Hc. exact I.
    + intros p q [=].
Qed.


Lemma swap_private_copy h f a w :
  field_ok h f -> heap_cstring h a = Done w -> apart f a ->
  private_copy (mark_free h f ++ [bytes_block w]) (length h, 0) a w /\
  released (mark_free h f ++ [bytes_block w]) f /\
  others_kept h (mark_free h f ++ [bytes_block w]) f.
Proof.
  intros Hf Hw Ha.
  pose proof (heap_cstring_no_nul _ _ _ Hw) as Hnul.
  pose proof (heap_cstring_lt _ _ _ Hw) as Hlt.
  assert (Hc : heap_cstring (mark_free h f ++ [bytes_block w]) (length h, 0) = Done w).
  { rewrite <- (length_mark_free h f). apply heap_cstring_fresh, Hnul. }
  assert (Hne : (length h, 0).1 <> a.1) by (simpl; lia).
  split; [split; [exact Hne|]; split; [exact Hc|]; split; [|split]|split].
  - rewrite heap_cstring_app_old by (rewrite length_mark_free; exact Hlt).
    rewrite heap_cstring_mark_free by exact Ha. exact Hw.
  - intros off v h' Hst. rewrite (heap_store_cstring _ _ _ _ _ Hst); [exact Hc | exact Hne].
  - intros h' Hfr. rewrite (heap_xfree_cstring _ _ _ _ Hfr); [exact Hc | exact Hne].
  - intros q ->. destruct Hf as [[_ [cs Hcs]] _].
    exists cs. rewrite lookup_app_l.
    + simpl. rewrite Hcs. apply list_lookup_insert_eq. eapply lookup_lt_Some, Hcs.
    + rewrite length_mark_free. eapply lookup_lt_Some, Hcs.
  - intros r s Hr Hs.
    rewrite heap_cstring_app_old
      by (rewrite length_mark_free; eapply heap_cstring_lt, Hs).
    rewrite heap_cstring_mark_free by exact Hr. exact Hs.
Qed.

(** What a string setter does whenever it returns, read off its run: the
    old block was allocated and is now released, the argument is not a
    string of that block, and the new value is a copy in a new block. *)
Lemma release_Done f st u st1 :
  release f st = Done (u, st1) ->
  st1 = with_mem (mark_free (mem st) f) st /\
  (forall q, f = Some q -> exists cs, mem st !! q.1 = Some (Block true cs)).
Proof.
  destruct f as [q|]; simpl.
  - intros H. apply xfree_Done in H as (h & Hfree & ->).
    revert Hfree. unfold heap_xfree.
    destruct (mem st !! q.1) as [[[] cs]|] eqn:Hq; try discriminate.
    destruct (q.2 =? 0); [|discriminate]. intros [= <-].
    split; [reflexivity|]. intros q' [= <-]. eauto.
  - intros H. injection H as _ <-.
    split; [destruct st; reflexivity | intros q [=]].
Qed.

Lemma mark_free_unreadable h f a w :
  (forall q, f = Some q -> exists cs, h !! q.1 = Some (Block true cs)) ->
  heap_cstring (mark_free h f) a = Done w -> apart f a.
Proof.
  intros Hlive Hw q -> Heq. destruct (Hlive q eq_refl) as [cs Hcs].
  revert Hw. unfold heap_cstring, live_cells. simpl. rewrite Hcs, Heq.
  rewrite list_lookup_insert_eq by (eapply lookup_lt_Some, Hcs). discriminate.
Qed.

Lemma mark_free_released h f blks :
  (forall q, f = Some q -> exists cs, h !! q.1 = Some (Block true cs)) ->
  released (mark_free h f ++ blks) f.
Proof.
  intros Hlive q ->. destruct (Hlive q eq_refl) as [cs Hcs].
  assert (Hlt : (q.1 < length h)%nat) by (eapply lookup_lt_Some, Hcs).
  exists cs. rewrite lookup_app_l by (rewrite length_mark_free; exact Hlt).
  simpl. rewrite Hcs. apply list_lookup_insert_eq, Hlt.
Qed.

Lemma mark_free_blocks_kept h f blks : blocks_kept h (mark_free h f ++ blks) f.
Proof.
  intros b Hb Hq. rewrite lookup_app_l by (rewrite length_mark_free; exact Hb).
  apply lookup_mark_free, Hq.
Qed.

Lemma blocks_kept_others h h' f : blocks_kept h h' f -> others_kept h h' f.
Proof.
  intros Hk r s Hr Hs. rewrite <- Hs. apply heap_cstring_lookup.
  apply Hk; [eapply heap_cstring_lt, Hs | exact Hr].
Qed.

Lemma fresh_private_copy h f a w :
  heap_cstring h a = Done w -> apart f a ->
  private_copy (mark_free h f ++ [bytes_block w]) (length h, 0) a w.
Proof.
  intros Hw Ha.
  pose proof (heap_cstring_no_nul _ _ _ Hw) as Hnul.
  pose proof (heap_cstring_lt _ _ _ Hw) as Hlt.
  assert (Hc : heap_cstring (mark_free h f ++ [bytes_block w]) (length h, 0) = Done w).
  { rewrite <- (length_mark_free h f). apply heap_cstring_fresh, Hnul. }
  assert (Hne : (length h, 0).1 <> a.1) by (simpl; lia).
  split; [exact Hne|]. split; [exact Hc|]. split; [|split].
  - rewrite heap_cstring_app_old by (rewrite length_mark_free; exact Hlt).
    rewrite heap_cstring_mark_free by exact Ha. exact Hw.
  - intros off v h' Hst. rewrite (heap_store_cstring _ _ _ _ _ Hst); [exact Hc | exact Hne].
  - intros h' Hfr. rewrite (heap_xfree_cstring _ _ _ _ Hfr); [exact Hc | exact Hne].
Qed.

Lemma swap_Done old arg st u st1 new st2 :
  release old st = Done (u, st1) -> duplicate arg st1 = Done (new, st2) ->
  same_globals st st2 /\ log st2 = log st /\
  released (mem st2) old /\ blocks_kept (mem st) (mem st2) old /\
  stored (mem st) (mem st2) arg new.
Proof.
  intros Hrel Hdup. apply release_Done in Hrel as [-> Hlive].
  destruct arg as [a|]; simpl in Hdup.
  - apply bind_Done in Hdup as (q & st3 & Hq & Hdup). injection Hdup as <- <-.
    unfold xstrdup in Hq. apply bind_Done in Hq as (w & st4 & Hw & Hq).
    apply cstring_Done in Hw as [Hw ->].
    apply strdup_bytes_Done in Hq as [-> ->].
    change (mem (with_mem (mark_free (mem st) old) st)) with (mark_free (mem st) old) in *.
    change (mem (with_mem _ _))
      with (mark_free (mem st) old ++ [bytes_block w]).
    pose proof (mark_free_unreadable _ _ _ _ Hlive Hw) as Ha.
    rewrite heap_cstring_mark_free in Hw by exact Ha.
    split; [repeat split|]. split; [reflexivity|].
    split; [apply mark_free_released, Hlive|].
    split; [apply mark_free_blocks_kept|].
    exists w. rewrite length_mark_free.
    split; [reflexivity|]. split; [|split; [exact Hw|apply fresh_private_copy; assumption]].
    rewrite length_app, length_mark_free. simpl. lia.
  - injection Hdup as <- <-.
    change (mem (with_mem (mark_free (mem st) old) st)) with (mark_free (mem st) old).
    split; [repeat split|]. split; [reflexivity|].
    rewrite <- (app_nil_r (mark_free (mem st) old)).
    split; [apply mark_free_released, Hlive|].
    split; [apply mark_free_blocks_kept|].
    split; [reflexivity|]. rewrite app_nil_r. apply length_mark_free.
Qed.

(** C10.  Whenever [set_current_charset] returns, [remote], both flags,
    the options, the locale handle, the descriptors and the log are as they
    were; the block that [current] owned is released and every other block
    of the heap, so every other string, is as it was; for a NULL argument
    [current] is NULL and nothing is allocated, and for a string [current]
    is the one new block, a copy of that string which still reads the same
    after the caller overwrites or releases its own.  The same holds of
    [set_remote_charset] with [remote] and [current] exchanged.
    [set_utf8_encode] returns with the UTF-8 flag set to its argument and
    the heap and every other variable as they were.  Both string setters do
    return when their field owns its block and the argument is NULL or a
    string of the caller's. *)
Theorem registry_setters_frame st :
  (forall charset st',
     set_current_charset charset st = Done (tt, st') ->
     (remote st' = remote st /\ utf8_encode st' = utf8_encode st /\
      ugly_no_encode st' = ugly_no_encode st /\ opt st' = opt st /\
      locale2utf8 st' = locale2utf8 st /\ descriptors st' = descriptors st /\
      log st' = log st) /\
     released (mem st') (current st) /\
     blocks_kept (mem st) (mem st') (current st) /\
     others_kept (mem st) (mem st') (current st) /\
     stored (mem st) (mem st') charset (current st')) /\
  (forall charset st',
     set_remote_charset charset st = Done (tt, st') ->
     (current st' = current st /\ utf8_encode st' = utf8_encode st /\
      ugly_no_encode st' = ugly_no_encode st /\ opt st' = opt st /\
      locale2utf8 st' = locale2utf8 st /\ descriptors st' = descriptors st /\
      log st' = log st) /\
     released (mem st') (remote st) /\
     blocks_kept (mem st) (mem st') (remote st) /\
     others_kept (mem st) (mem st') (remote st) /\
     stored (mem st) (mem st') charset (remote st')) /\
  (forall encode, exists st',
     set_utf8_encode encode st = Done (tt, st') /\ utf8_encode st' = encode /\
     mem st' = mem st /\ remote st' = remote st /\ current st' = current st /\
     ugly_no_encode st' = ugly_no_encode st /\ opt st' = opt st /\
     locale2utf8 st' = locale2utf8 st /\ descriptors st' = descriptors st /\
     log st' = log st) /\
  (forall charset,
     field_ok (mem st) (current st) ->
     (forall a, charset = Some a ->
        (exists w, heap_cstring (mem st) a = Done w) /\ apart (current st) a) ->
     exists st', set_current_charset charset st = Done (tt, st')) /\
  (forall charset,
     field_ok (mem st) (remote st) ->
     (forall a, charset = Some a ->
        (exists w, heap_cstring (mem st) a = Done w) /\ apart (remote st) a) ->
     exists st', set_remote_charset charset st = Done (tt, st')).
Proof.
  split; [|split; [|split; [|split]]].
  - intros charset st'. unfold set_current_charset. rewrite bind_gets. intros H.
    apply bind_Done in H as (u & st1 & Hrel & H).
    apply bind_Done in H as (new & st2 & Hdup & H). injection H as <-.
    destruct (swap_Done _ _ _ _ _ _ _ Hrel Hdup)
      as ((O & R & _ & U & N & L & D) & Hlog & Hfree & Hkept & Hnew).
    simpl. split; [repeat split; assumption|]. split; [exact Hfree|].
    split; [exact Hkept|]. split; [apply blocks_kept_others, Hkept | exact Hnew].
  - intros charset st'. unfold set_remote_charset. rewrite bind_gets. intros H.
    apply bind_Done in H as (u & st1 & Hrel & H).
    apply bind_Done in H as (new & st2 & Hdup & H). injection H as <-.
    destruct (swap_Done _ _ _ _ _ _ _ Hrel Hdup)
      as ((O & _ & C & U & N & L & D) & Hlog & Hfree & Hkept & Hnew).
    simpl. split; [repeat split; assumption|]. split; [exact Hfree|].
    split; [exact Hkept|]. split; [apply blocks_kept_others, Hkept | exact Hnew].
  - intros encode. eexists. split; [reflexivity|]. repeat split.
  - intros [a|] Hf Harg.
    + destruct (Harg a eq_refl) as [[w Hw] Ha].
      eexists. apply (set_current_charset_copy st a w Hf Hw Ha).
    + eexists. apply (set_current_charset_null st Hf).
  - intros [a|] Hf Harg.
    + destruct (Harg a eq_refl) as [[w Hw] Ha].
      eexists. apply (set_remote_charset_copy st a w Hf Hw Ha).
    + eexists. apply (set_remote_charset_null st Hf).
Qed.

(** The argument has to be the caller's own: handing a setter the very
    string its field owns makes it release the string before copying it. *)
Lemma set_current_charset_own_string st p :
  current st = Some p -> owned (mem st) p ->
  set_current_charset (Some p) st = Fault UseAfterFree.
Proof.
  intros Hcur [Hoff [cs Hcs]]. unfold set_current_charset. rewrite bind_gets, Hcur.
  unfold mbind, M_bind. simpl. unfold xfree, heap_write, heap_xfree. rewrite Hcs, Hoff. simpl.
  unfold xstrdup, mbind, M_bind, cstring, heap_read, heap_cstring, live_cells. simpl.
  rewrite list_lookup_insert_eq by (eapply lookup_lt_Some, Hcs). reflexivity.
Qed.

(** ** The charset parser *)

Lemma heap_cstring_head h p c s :
  heap_cstring h p = Done (c :: s) -> heap_load h p = Done c /\ c <> 0.
Proof.
  unfold heap_cstring, heap_load.
  destruct (live_cells h p.1) as [cs| |]; simpl; try discriminate.
  destruct (p.2 <? 0); [discriminate|].
  destruct (drop (Z.to_nat p.2) cs) as [|[c'|] cs'] eqn:Hd; simpl; try discriminate.
  destruct (Z.eqb_spec c' 0) as [|Hc]; [discriminate|].
  destruct (cstring_of cs'); simpl; try discriminate.
  intros [= -> _].
  assert (Hl : cs !! Z.to_nat p.2 = Some (Some c)).
  { rewrite <- (Nat.add_0_r (Z.to_nat p.2)), <- lookup_drop, Hd. reflexivity. }
  rewrite Hl. auto.
Qed.

Lemma scan_token_app token rest :
  Forall (fun c => c_isspace c = false) token ->
  rest = [] \/ (exists c rest', rest = c :: rest' /\ c_isspace c = true) ->
  scan_token (token ++ rest) = token.
Proof.
  intros Htok Hrest. induction Htok as [|c token Hc _ IH]; simpl.
  - destruct Hrest as [->|(c & rest' & -> & Hc)]; simpl; [reflexivity|].
    rewrite Hc. reflexivity.
  - rewrite Hc, IH. reflexivity.
Qed.

Lemma encoding_chars_ok_ascii token :
  Forall (fun c => c_isspace c = false) token ->
  encoding_chars_ok token = forallb c_isascii token.
Proof.
  induction 1 as [|c token Hc _ IH]; simpl; [reflexivity|].
  rewrite Hc, IH. destruct (c_isascii c); reflexivity.
Qed.

Lemma check_encoding_name_fresh st token :
  Forall (fun c => c <> 0) token ->
  let st1 := with_mem (mem st ++ [bytes_block token]) st in
  check_encoding_name (length (mem st), 0) st1
    = if encoding_chars_ok token then Done (true, st1)
      else Done (false, with_log (log st ++ [LogEncodingInvalid token]) st1).
Proof.
  intros Hnul st1. unfold check_encoding_name, mbind, M_bind, cstring, heap_read.
  change (mem st1) with (mem st ++ [bytes_block token]).
  rewrite (heap_cstring_fresh _ _ Hnul).
  destruct (encoding_chars_ok token); reflexivity.
Qed.

(** C3, as the code has it.  When the string holds no [charset=], in any
    case, [parse_charset] returns NULL.  Otherwise the token runs from just
    after the first [charset=] to the next white space or the end of the
    string, and it is returned, as a fresh copy, exactly when all its bytes
    are ASCII; a token with another byte gives NULL.  Nothing asks for the
    token to have a byte at all: an empty token is returned as the empty
    string. *)
Theorem parse_charset_token st p s :
  heap_cstring (mem st) p = Done s -> s <> [] ->
  (strcasestr s charset_key = None -> parse_charset (Some p) st = Done (None, st)) /\
  (forall i token rest,
     strcasestr s charset_key = Some i ->
     drop (i + 8) s = token ++ rest ->
     Forall (fun c => c_isspace c = false) token ->
     rest = [] \/ (exists c rest', rest = c :: rest' /\ c_isspace c = true) ->
     if forallb c_isascii token
     then parse_charset (Some p) st
            = Done (Some (length (mem st), 0), with_mem (mem st ++ [bytes_block token]) st)
          /\ heap_cstring (mem st ++ [bytes_block token]) (length (mem st), 0) = Done token
     else exists st', parse_charset (Some p) st = Done (None, st')).
Proof.
  intros Hs Hne.
  destruct s as [|c0 s0]; [contradiction|].
  destruct (heap_cstring_head _ _ _ _ Hs) as [Hload Hc0].
  assert (Hstart :
    parse_charset (Some p) st =
    match strcasestr (c0 :: s0) charset_key with
    | None => Done (None, st)
    | Some i =>
        (charset ← strdup_bytes (scan_token (drop (i + 8) (c0 :: s0)));
         ok ← check_encoding_name charset;
         if negb ok then xfree charset;; mret None else mret (Some charset)) st
    end).
  { unfold parse_charset, mbind at 1, M_bind at 1, load, heap_read.
    rewrite Hload. destruct (Z.eqb_spec c0 0) as [?|_]; [contradiction|].
    unfold mbind at 1, M_bind at 1, cstring, heap_read. rewrite Hs.
    destruct (strcasestr (c0 :: s0) charset_key); reflexivity. }
  split.
  - intros Hnone. rewrite Hstart, Hnone. reflexivity.
  - intros i token rest Hi Hdrop Htok Hrest. rewrite Hstart, Hi, Hdrop.
    rewrite (scan_token_app _ _ Htok Hrest).
    assert (Hnul : Forall (fun c => c <> 0) token).
    { pose proof (heap_cstring_no_nul _ _ _ Hs) as Hall.
      rewrite <- (take_drop (i + 8) (c0 :: s0)), Hdrop in Hall.
      apply Forall_app in Hall as [_ Hall]. apply Forall_app in Hall as [Hall _].
      exact Hall. }
    set (st1 := with_mem (mem st ++ [bytes_block token]) st).
    assert (Hdup : strdup_bytes token st = Done ((length (mem st), 0), st1)) by reflexivity.
    rewrite (bind_eq _ _ _ _ _ Hdup).
    pose proof (check_encoding_name_fresh st token Hnul) as Hchk. fold st1 in Hchk.
    rewrite (encoding_chars_ok_ascii _ Htok) in Hchk.
    destruct (forallb c_isascii token).
    + rewrite (bind_eq _ _ _ _ _ Hchk). split; [reflexivity | apply heap_cstring_fresh, Hnul].
    + rewrite (bind_eq _ _ _ _ _ Hchk). simpl.
      unfold mbind, M_bind, xfree, heap_write, heap_xfree. simpl.
      rewrite list_lookup_middle by reflexivity. simpl. eexists. reflexivity.
Qed.

(** C3, as the specification states it, fails: for the header value
    [charset= ] the token is empty and [parse_charset] returns a pointer to
    a fresh empty string, not NULL. *)
Lemma parse_charset_empty_token_not_null :
  (exists q st', parse_charset (Some (0%nat, 0)) empty_charset_state = Done (Some q, st')
                 /\ heap_cstring (mem st') q = Done []) /\
  ~ (exists st', parse_charset (Some (0%nat, 0)) empty_charset_state = Done (None, st')).
Proof.
  split.
  - eexists _, _. split; vm_compute; reflexivity.
  - intros [st' H]. vm_compute in H. discriminate.
Qed.

(** ** The converter when the first buffer is large enough *)

Lemma length_buffer w free : length (buffer w free) = (length w + free)%nat.
Proof. unfold buffer. rewrite length_app, length_map, length_replicate. reflexivity. Qed.

Lemma buffer_store w free x :
  <[length w := Some x]> (buffer w (S free)) = buffer (w ++ [x]) free.
Proof.
  unfold buffer. rewrite insert_app_r_alt by (rewrite length_map; lia).
  rewrite length_map, Nat.sub_diag. simpl.
  rewrite map_app, <- app_assoc. reflexivity.
Qed.

Lemma heap_store_last h0 cs off x :
  0 <= off < Z.of_nat (length cs) ->
  heap_store (h0 ++ [Block true cs]) (length h0, off) x
    = Done (h0 ++ [Block true (<[Z.to_nat off := Some x]> cs)]).
Proof.
  intros Hoff. unfold heap_store. simpl. rewrite live_cells_app_new. simpl.
  destruct (Z.ltb_spec off 0) as [?|_]; [lia|].
  destruct (Z.leb_spec (Z.of_nat (length cs)) off) as [?|_]; [lia|]. simpl.
  rewrite insert_app_r_alt by lia. rewrite Nat.sub_diag. reflexivity.
Qed.

Lemma heap_store_bytes_buffer h0 o : forall w free,
  (length o <= free)%nat ->
  heap_store_bytes (h0 ++ [Block true (buffer w free)]) (length h0, Z.of_nat (length w)) o
    = Done (h0 ++ [Block true (buffer (w ++ o) (free - length o))]).
Proof.
  induction o as [|x o IH]; intros w free Hfree; simpl in *.
  - rewrite app_nil_r, Nat.sub_0_r. reflexivity.
  - destruct free as [|free]; [lia|].
    rewrite heap_store_last by (rewrite length_buffer; lia). simpl.
    rewrite Nat2Z.id, buffer_store.
    replace (Z.of_nat (length w) + 1) with (Z.of_nat (length (w ++ [x])))
      by (rewrite length_app; simpl; lia).
    unfold ptr_add; simpl.
    replace (Z.of_nat (length w) + 1) with (Z.of_nat (length (w ++ [x])))
      by (rewrite length_app; simpl; lia).
    rewrite IH by lia. rewrite <- app_assoc. reflexivity.
Qed.

(** One call of [iconv] into a buffer with room for everything that is
    still to come: it appends the conversion of the characters up to the
    end of the input or up to the first byte it rejects. *)
Lemma iconv_chars_buffer c h0 inp : forall skip w free outlen o,
  spec_conversion c skip inp = Some o ->
  Z.of_nat (length o) <= outlen -> outlen <= Z.of_nat free ->
  exists w1 r inp',
    iconv_chars c skip inp (length h0, Z.of_nat (length w)) outlen
                (h0 ++ [Block true (buffer w free)])
      = Done (r, inp', (length h0, Z.of_nat (length (w ++ w1))),
              outlen - Z.of_nat (length w1),
              h0 ++ [Block true (buffer (w ++ w1) (free - length w1))]) /\
    (length inp' <= length inp)%nat /\
    ((r = IconvDone /\ inp' = [] /\ o = w1) \/
     (exists e x rest o2,
        r = IconvFail e /\ (e = EINVAL \/ e = EILSEQ) /\ inp' = x :: rest /\
        spec_conversion c 0 rest = Some o2 /\ o = w1 ++ x :: o2)).
Proof.
  induction inp as [|b rest IH]; intros skip w free outlen o Hspec Hfit Hfree; simpl in *.
  - injection Hspec as <-. exists [], IconvDone, [].
    rewrite app_nil_r, Nat.sub_0_r, Z.sub_0_r. split; [reflexivity|]. split; [simpl; lia | left; auto].
  - destruct skip as [|k].
    2:{ destruct (IH k w free outlen o Hspec Hfit Hfree) as (w1 & r & inp' & Hrun & Hle & Hcase).
        exists w1, r, inp'. split; [exact Hrun|]. split; [simpl; lia | exact Hcase]. }
    destruct (c b rest) as [k oc| | |e] eqn:Hc.
    + destruct (spec_conversion c k rest) as [o'|] eqn:Hrest; [|discriminate].
      simpl in Hspec. injection Hspec as <-. rewrite length_app in Hfit.
      destruct (Z.ltb_spec outlen (Z.of_nat (length oc))) as [?|_]; [lia|].
      rewrite heap_store_bytes_buffer by lia. simpl.
      unfold ptr_add; simpl.
      replace (Z.of_nat (length w) + Z.of_nat (length oc))
        with (Z.of_nat (length (w ++ oc))) by (rewrite length_app; lia).
      destruct (IH k (w ++ oc) (free - length oc)%nat (outlen - Z.of_nat (length oc)) o' Hrest)
        as (w1 & r & inp' & Hrun & Hle & Hcase); [lia|lia|].
      exists (oc ++ w1), r, inp'. split; [|split; [simpl; lia|]].
      * rewrite Hrun. rewrite !app_assoc, !length_app.
        replace (outlen - Z.of_nat (length oc + length w1))
          with (outlen - Z.of_nat (length oc) - Z.of_nat (length w1)) by lia.
        replace (free - (length oc + length w1))%nat
          with (free - length oc - length w1)%nat by lia.
        reflexivity.
      * destruct Hcase as [(-> & -> & ->)|(e & x & rest' & o2 & -> & He & -> & Ho2 & ->)].
        -- left. auto.
        -- right. exists e, x, rest', o2. rewrite <- app_assoc. auto.
    + destruct (spec_conversion c 0 rest) as [o2|] eqn:Hrest; [|discriminate].
      simpl in Hspec. injection Hspec as <-.
      exists [], (IconvFail EILSEQ), (b :: rest).
      rewrite app_nil_r, Nat.sub_0_r, Z.sub_0_r. split; [reflexivity|]. split; [simpl; lia|].
      right. exists EILSEQ, b, rest, o2. auto.
    + destruct (spec_conversion c 0 rest) as [o2|] eqn:Hrest; [|discriminate].
      simpl in Hspec. injection Hspec as <-.
      exists [], (IconvFail EINVAL), (b :: rest).
      rewrite app_nil_r, Nat.sub_0_r, Z.sub_0_r. split; [reflexivity|]. split; [simpl; lia|].
      right. exists EINVAL, b, rest, o2. auto.
    + discriminate.
Qed.

Lemma wrap_small z : 0 <= z < SIZE_MOD -> wrap z = z.
Proof. intros Hz. unfold wrap. apply Z.mod_small, Hz. Qed.

Lemma displacement_small z : 0 <= z < 2 ^ 63 -> displacement z = z.
Proof.
  intros Hz. unfold displacement.
  rewrite wrap_small by (unfold SIZE_MOD, SIZE_WIDTH; lia).
  change (SIZE_WIDTH - 1) with 63.
  destruct (Z.ltb_spec z (2 ^ 63)); [reflexivity | lia].
Qed.

Lemma iconv_open_descriptor id c inp out outlen st r inp' out' outlen' h :
  descriptors st !! id = Some (Descriptor true c) ->
  iconv_chars c 0 inp out outlen (mem st) = Done (r, inp', out', outlen', h) ->
  iconv (IconvDesc id) inp out outlen st = Done ((r, inp', out', outlen'), with_mem h st).
Proof. intros Hd Hrun. unfold iconv. rewrite Hd, Hrun. reflexivity. Qed.

Lemma store_last st h0 cs off x :
  mem st = h0 ++ [Block true cs] -> 0 <= off < Z.of_nat (length cs) ->
  store (length h0, off) x st
    = Done (tt, with_mem (h0 ++ [Block true (<[Z.to_nat off := Some x]> cs)]) st).
Proof.
  intros Hm Hoff. unfold store, heap_write. rewrite Hm, heap_store_last by exact Hoff.
  reflexivity.
Qed.

Lemma do_conversion_loop_fits c id h0 fuel :
  forall inp w free outlen len invalid tooshort st o,
  mem st = h0 ++ [Block true (buffer w free)] ->
  descriptors st !! id = Some (Descriptor true c) ->
  spec_conversion c 0 inp = Some o ->
  outlen = len - Z.of_nat (length w) ->
  Z.of_nat (length w) + Z.of_nat (length o) <= len ->
  Z.of_nat (length w) + Z.of_nat free = len + 1 ->
  len < 2 ^ 63 ->
  (length inp < fuel)%nat ->
  exists st',
    do_conversion_loop fuel (IconvDesc id) inp (length h0, Z.of_nat (length w))
                       outlen len 0 (length h0, 0) invalid tooshort st
      = Done ((true, (length h0, 0)), st') /\
    mem st' = h0 ++ [Block true (buffer (w ++ o ++ [0]) (free - length o - 1))].
Proof.
  induction fuel as [|fuel IH];
    intros inp w free outlen len invalid tooshort st o Hm Hd Hspec -> Hfit Hcap Hlen Hfuel.
  - lia.
  - destruct (iconv_chars_buffer c h0 inp 0 w free (len - Z.of_nat (length w)) o Hspec)
      as (w1 & r & inp' & Hrun & Hle & Hcase); [lia|lia|].
    rewrite <- Hm in Hrun at 1.
    simpl. rewrite (bind_eq _ _ _ _ _ (iconv_open_descriptor _ _ _ _ _ _ _ _ _ _ _ Hd Hrun)).
    set (st1 := with_mem _ st).
    destruct Hcase as [(-> & -> & <-)|(e & x & rest & o2 & -> & He & -> & Ho2 & ->)].
    + rewrite length_app in *.
      assert (Hoff : displacement (len - (len - Z.of_nat (length w) - Z.of_nat (length o)) - 0)
                     = Z.of_nat (length w + length o)) by (rewrite displacement_small; lia).
      unfold ptr_add; simpl. rewrite Hoff, <- length_app.
      destruct (free - length o)%nat as [|k] eqn:Hk; [lia|].
      assert (Hst : store (length h0, Z.of_nat (length (w ++ o))) 0 st1
                    = Done (tt, with_mem (h0 ++ [Block true (buffer ((w ++ o) ++ [0]) k)]) st1)).
      { rewrite (store_last st1 h0 (buffer (w ++ o) (S k))).
        - rewrite Nat2Z.id, buffer_store. reflexivity.
        - reflexivity.
        - rewrite length_buffer. lia. }
      rewrite (bind_eq _ _ _ _ _ Hst).
      eexists. split; [reflexivity|]. simpl.
      rewrite <- app_assoc, Nat.sub_0_r. reflexivity.
    + rewrite !length_app in *. simpl in Hfit.
      assert (Herr : (e =? EINVAL) || (e =? EILSEQ) = true).
      { destruct He as [-> | ->]; reflexivity. }
      rewrite Herr.
      set (st2 := if invalid =? 0 then with_log (log st1 ++ [LogInvalidSequence]) st1 else st1).
      assert (Hlog : (if invalid =? 0 then logprintf LogInvalidSequence else mret tt) st1
                     = Done (tt, st2)).
      { unfold st2. destruct (invalid =? 0); reflexivity. }
      assert (Hm2 : mem st2 = h0 ++ [Block true (buffer (w ++ w1) (free - length w1))]).
      { unfold st2. destruct (invalid =? 0); reflexivity. }
      assert (Hd2 : descriptors st2 !! id = Some (Descriptor true c)).
      { unfold st2. destruct (invalid =? 0); exact Hd. }
      rewrite (bind_eq _ _ _ _ _ Hlog).
      destruct (free - length w1)%nat as [|k] eqn:Hk; [lia|].
      rewrite <- length_app.
      assert (Hst : store (length h0, Z.of_nat (length (w ++ w1))) x st2
                    = Done (tt, with_mem (h0 ++ [Block true (buffer ((w ++ w1) ++ [x]) k)]) st2)).
      { rewrite (store_last st2 h0 (buffer (w ++ w1) (S k))).
        - rewrite Nat2Z.id, buffer_store. reflexivity.
        - exact Hm2.
        - rewrite length_buffer. lia. }
      rewrite (bind_eq _ _ _ _ _ Hst).
      unfold ptr_add; simpl.
      replace (Z.of_nat (length (w ++ w1)) + 1)
        with (Z.of_nat (length ((w ++ w1) ++ [x]))) by (rewrite !length_app; simpl; lia).
      rewrite wrap_small by (unfold SIZE_MOD, SIZE_WIDTH; lia).
      destruct (IH rest ((w ++ w1) ++ [x]) k
                   (len - Z.of_nat (length w) - Z.of_nat (length w1) - 1) len
                   (invalid + 1) tooshort
                   (with_mem (h0 ++ [Block true (buffer ((w ++ w1) ++ [x]) k)]) st2) o2)
        as (st' & Hloop & Hm');
        [reflexivity | exact Hd2 | exact Ho2 | | | | | |].
      1-5: rewrite ?length_app; simpl in *; lia.
      exists st'. split; [exact Hloop|].
      rewrite Hm'. rewrite <- !app_assoc. simpl.
      replace (k - length o2 - 1)%nat with (free - (length w1 + S (length o2)) - 1)%nat by lia.
      reflexivity.
Qed.

(** When everything the conversion produces fits into the first buffer of
    twice the input length, [do_conversion] succeeds in a fresh block that
    holds exactly the converted bytes (transcoded characters and bytes
    passed through), then the NUL, then cells never written. *)
Theorem do_conversion_fits c id inp o fuel st :
  descriptors st !! id = Some (Descriptor true c) ->
  spec_conversion c 0 inp = Some o ->
  (length o <= 2 * length inp)%nat ->
  2 * Z.of_nat (length inp) < 2 ^ 63 ->
  (length inp < fuel)%nat ->
  exists st',
    do_conversion fuel (IconvDesc id) inp st = Done ((true, (length (mem st), 0)), st') /\
    mem st' = mem st ++ [Block true (buffer (o ++ [0]) (2 * length inp - length o))] /\
    same_globals st st'.
Proof.
  intros Hd Hspec Hfit Hsmall Hfuel. unfold do_conversion.
  rewrite (wrap_small (Z.of_nat (length inp) * 2)) by (unfold SIZE_MOD, SIZE_WIDTH; lia).
  rewrite (wrap_small (Z.of_nat (length inp) * 2 + 1)) by (unfold SIZE_MOD, SIZE_WIDTH; lia).
  set (free := Z.to_nat (Z.of_nat (length inp) * 2 + 1)).
  set (st1 := with_mem (mem st ++ [Block true (buffer [] free)]) st).
  assert (Hnew : xmalloc (Z.of_nat (length inp) * 2 + 1) st = Done ((length (mem st), 0), st1))
    by reflexivity.
  rewrite (bind_eq _ _ _ _ _ Hnew).
  destruct (do_conversion_loop_fits c id (mem st) fuel inp [] free
              (Z.of_nat (length inp) * 2) (Z.of_nat (length inp) * 2) 0 0 st1 o)
    as (st' & Hloop & Hm'); try (simpl; lia); [reflexivity | exact Hd | exact Hspec |].
  exists st'. split; [exact Hloop|]. split.
  - rewrite Hm'. simpl. replace (free - length o - 1)%nat with (2 * length inp - length o)%nat
      by lia. reflexivity.
  - apply do_conversion_loop_frame with (n := length (mem st)) in Hloop as (G & _ & _).
    + eapply same_globals_trans; [apply same_globals_mem | exact G].
    + simpl; lia.
    + reflexivity.
    + simpl. rewrite length_app. lia.
Qed.

Lemma cstring_of_cells cs s :
  cstring_of cs = Done s -> exists rest, cs = map Some (s ++ [0]) ++ rest.
Proof.
  revert s; induction cs as [|[c|] cs IH]; intros s; simpl; try discriminate.
  destruct (Z.eqb_spec c 0) as [->|Hc].
  - intros [= <-]. exists cs. reflexivity.
  - destruct (cstring_of cs) as [t| |]; simpl; try discriminate.
    intros [= <-]. destruct (IH t eq_refl) as [rest ->]. exists rest. reflexivity.
Qed.

Lemma compare_cells_equal s : forall r1 r2,
  Forall (fun c => c <> 0) s ->
  compare_cells id (map Some (s ++ [0]) ++ r1) (map Some (s ++ [0]) ++ r2) = Done 0.
Proof.
  intros r1 r2. induction 1 as [|c s Hc _ IH]; simpl.
  - reflexivity.
  - rewrite Z.eqb_refl.
    destruct (Z.eqb_spec c 0) as [?|_]; [contradiction | exact IH].
Qed.

(** X5.  A conversion that gives back the bytes it was given (a string that
    is already UTF-8, converted from UTF-8) counts as no conversion:
    [remote_to_utf8] returns false, and the one block it allocated is
    released again; the heap it was given is as before. *)
Theorem remote_to_utf8_same_bytes E fuel str st r name c inp :
  match encoding_remote (opt st) with Some r => Some r | None => current st end = Some r ->
  heap_cstring (mem st) r = Done name ->
  iconv_provider E (bytes_of_string "UTF-8") name = Some c ->
  heap_cstring (mem st) str = Done inp ->
  spec_conversion c 0 inp = Some inp ->
  2 * Z.of_nat (length inp) < 2 ^ 63 ->
  (length inp < fuel)%nat ->
  exists st',
    remote_to_utf8 E fuel str st = Done ((false, Some (length (mem st), 0)), st') /\
    mem st' = mem st ++ [Block false (buffer (inp ++ [0]) (length inp))].
Proof.
  intros Hsrc Hname Hprov Hinp Hspec Hsmall Hfuel.
  unfold remote_to_utf8. rewrite !bind_gets, Hsrc.
  set (st1 := with_descriptors (descriptors st ++ [Descriptor true c]) st).
  assert (Hopen : iconv_open E (bytes_of_string "UTF-8") r st
                  = Done (IconvDesc (length (descriptors st)), st1)).
  { unfold iconv_open, cstring. unfold mbind at 1, M_bind at 1, heap_read.
    rewrite Hname, Hprov. reflexivity. }
  rewrite (bind_eq _ _ _ _ _ Hopen).
  assert (Hstr : cstring str st1 = Done (inp, st1)).
  { unfold cstring, heap_read. simpl. rewrite Hinp. reflexivity. }
  rewrite (bind_eq _ _ _ _ _ Hstr).
  destruct (do_conversion_fits c (length (descriptors st)) inp inp fuel st1)
    as (st2 & Hconv & Hm2 & G); try lia.
  { simpl. apply list_lookup_middle. reflexivity. }
  { exact Hspec. }
  change (mem st1) with (mem st) in Hconv, Hm2.
  rewrite (bind_eq _ _ _ _ _ Hconv).
  unfold iconv_close. rewrite bind_modify.
  set (st3 := with_descriptors _ st2).
  pose proof (heap_cstring_no_nul _ _ _ Hinp) as Hnul.
  assert (Hcmp : strcmp str (length (mem st), 0) st3 = Done (0, st3)).
  { unfold heap_cstring in Hinp.
    destruct (live_cells (mem st) str.1) as [cs| |] eqn:Hl; simpl in Hinp; try discriminate.
    destruct (str.2 <? 0) eqn:Hneg; [discriminate|].
    destruct (cstring_of_cells _ _ Hinp) as [rest Hcs].
    unfold strcmp, heap_read, heap_strcmp, cells_at. simpl. rewrite Hm2.
    rewrite live_cells_app_new, live_cells_app_old by (eapply live_cells_lt, Hl).
    rewrite Hl. simpl. rewrite Hneg, Hcs.
    change (Z.to_nat 0) with 0%nat. rewrite drop_0. unfold buffer, obind.
    rewrite (compare_cells_equal inp rest _ Hnul). reflexivity. }
  rewrite (bind_eq _ _ _ _ _ Hcmp). simpl.
  unfold mbind, M_bind, xfree, heap_write, heap_xfree. simpl. rewrite Hm2.
  rewrite list_lookup_middle by reflexivity. simpl.
  eexists. split; [reflexivity|]. simpl.
  rewrite insert_app_r_alt by lia. rewrite Nat.sub_diag. simpl.
  replace (2 * length inp - length inp)%nat with (length inp) by lia.
  replace (length inp + (length inp + 0) - length inp)%nat with (length inp) by lia.
  reflexivity.
Qed.

(** ** Where the converter goes wrong *)

(** C1.  One character of TIS-620 (0xA1) becomes three bytes of UTF-8, more
    than the two the first buffer has room for.  The converter grows the
    buffer and reports success, but the buffer it returns does not hold the
    converted bytes followed by a NUL: its first byte is an indeterminate
    byte copied from the first buffer and the NUL sits at offset 1, before
    the three converted bytes. *)
Theorem do_conversion_growth_loses_output :
  spec_conversion tis620_to_utf8 0 [161] = Some [224; 184; 129] /\
  exists st',
    do_conversion 4 (IconvDesc 0) [161] (state_with_codec tis620_to_utf8)
      = Done ((true, (1%nat, 0)), st') /\
    mem st' = [Block false [None; None; None];
               Block true [None; Some 0; Some 224; Some 184; Some 129]] /\
    heap_cstring (mem st') (1%nat, 0) = Fault UninitRead.
Proof.
  split; [reflexivity|]. eexists. split; [vm_compute; reflexivity|].
  split; reflexivity.
Qed.

(** C2.  In the TIS-620 input A1 FF A2 the byte FF is an isolated invalid
    byte between two valid characters; the output should be the seven bytes
    E0 B8 81 FF E0 B8 82.  The invalid byte is passed through, then the
    buffer has to grow for the last character, and the terminator is stored
    at offset len - outlen - done = 8 - 5 - 6, three bytes before the
    buffer.  The same happens without growth when the invalid byte comes
    as the buffer is exactly full (A1 A2 FF): [outlen] wraps around and the
    terminator is stored one byte past the end of the buffer. *)
Theorem do_conversion_passthrough_misplaced_terminator :
  spec_conversion tis620_to_utf8 0 [161; 255; 162]
    = Some [224; 184; 129; 255; 224; 184; 130] /\
  do_conversion 8 (IconvDesc 0) [161; 255; 162] (state_with_codec tis620_to_utf8)
    = Fault OutOfBounds /\
  displacement (8 - 5 - 6) = -3 /\
  spec_conversion tis620_to_utf8 0 [161; 162; 255]
    = Some [224; 184; 129; 224; 184; 130; 255] /\
  do_conversion 8 (IconvDesc 0) [161; 162; 255] (state_with_codec tis620_to_utf8)
    = Fault OutOfBounds /\
  displacement (6 - wrap (0 - 1) - 0) = 7.
Proof. repeat split; vm_compute; reflexivity. Qed.

(** C4.  When the conversion fails, [do_conversion] returns false with its
    buffer still allocated and [*new] left at the cursor, on bytes that were
    never written.  [remote_to_utf8] then compares [str] with [*new] all the
    same, reading indeterminate bytes, and no path releases the buffer. *)
Theorem remote_to_utf8_failed_conversion :
  (exists st2,
     do_conversion 4 (IconvDesc 0) [97]
       (with_descriptors [Descriptor true failing_codec] failing_state)
       = Done ((false, (2%nat, 0)), st2) /\
     mem st2 !! 2%nat = Some (Block true [None; None; None])) /\
  remote_to_utf8 sample_env 4 (0%nat, 0) failing_state = Fault UninitRead.
Proof.
  split; [|vm_compute; reflexivity].
  eexists. split; [vm_compute; reflexivity | reflexivity].
Qed.

(** ** The theorems at work on concrete inputs *)

Lemma parse_charset_token_witness :
  parse_charset (Some (0%nat, 0)) content_type_state
    = Done (Some (1%nat, 0),
            with_mem (mem content_type_state ++ [string_block "UTF-8"]) content_type_state)
  /\ heap_cstring (mem content_type_state ++ [string_block "UTF-8"]) (1%nat, 0)
     = Done (bytes_of_string "UTF-8").
Proof.
  assert (Hne : bytes_of_string "text/html; charset=UTF-8" <> []) by discriminate.
  apply (proj2 (parse_charset_token content_type_state (0%nat, 0)
                  (bytes_of_string "text/html; charset=UTF-8") eq_refl Hne)
               11%nat (bytes_of_string "UTF-8") []).
  - reflexivity.
  - reflexivity.
  - repeat constructor.
  - left. reflexivity.
Defined.

Lemma remote_to_utf8_source_and_handle_witness :
  exists st',
    remote_to_utf8 sample_env 4 (0%nat, 0) latin1_state = Done ((true, Some (2%nat, 0)), st') /\
    descriptors st' = [Descriptor false latin1_to_utf8].
Proof.
  eexists. split; [vm_compute; reflexivity|].
  destruct (proj2 (remote_to_utf8_source_and_handle sample_env 4 (0%nat, 0) latin1_state)
              (1%nat, 0) (true, Some (2%nat, 0)) _ eq_refl eq_refl)
    as (name & Hname & H).
  injection Hname as <-. exact (proj2 H).
Defined.

Lemma busy_registry_wf : registry_wf busy_registry_state.
Proof.
  split; [|split].
  - split; [split; [reflexivity | eexists; reflexivity] | eexists; reflexivity].
  - split; [split; [reflexivity | eexists; reflexivity] | eexists; reflexivity].
  - intros p q [= <-] [= <-]. discriminate.
Defined.


Lemma locale_to_utf8_passthrough_witness :
  locale_to_utf8 sample_env 4 (0%nat, 0) (locale_state "UTF-8")
    = Done ((0%nat, 0), locale_state "UTF-8") /\
  (exists st1, locale_to_utf8 sample_env 4 (0%nat, 0) (locale_state "KLINGON")
                 = Done ((0%nat, 0), st1)) /\
  (exists st2, locale_to_utf8 sample_env 4 (0%nat, 0) (locale_state "X-FAILING")
                 = Done ((0%nat, 0), st2)) /\
  (exists st1 inp st',
     do_conversion 4 (locale2utf8 st1) inp st1 = Done ((true, (2%nat, 0)), st') /\
     (length (mem (locale_state "ISO-8859-1")) <= 2)%nat).
Proof.
  split; [|split; [|split]].
  - apply (proj1 (locale_to_utf8_passthrough sample_env 4 (0%nat, 0) (locale_state "UTF-8"))
                 (1%nat, 0)); reflexivity.
  - eexists.
    apply (proj1 (proj2 (locale_to_utf8_passthrough sample_env 4 (0%nat, 0)
                           (locale_state "KLINGON"))) (1%nat, 0) (-10)).
    + reflexivity.
    + vm_compute; reflexivity.
    + discriminate.
    + vm_compute; reflexivity.
  - eexists.
    eapply (proj1 (proj2 (proj2 (locale_to_utf8_passthrough sample_env 4 (0%nat, 0)
                                   (locale_state "X-FAILING")))) (1%nat, 0) 3 _ [104; 233] (2%nat, 0)).
    + reflexivity.
    + vm_compute; reflexivity.
    + discriminate.
    + vm_compute; reflexivity.
    + vm_compute; reflexivity.
    + vm_compute; reflexivity.
  - destruct (proj2 (proj2 (proj2 (locale_to_utf8_passthrough sample_env 4 (0%nat, 0)
                                     (locale_state "ISO-8859-1")))) (2%nat, 0) _ eq_refl)
      as (st1 & inp & _ & _ & Hconv & Hfresh); [discriminate|].
    exists st1, inp. eexists. split; [exact Hconv | exact Hfresh].
Defined.

Lemma idn_encode_failures_witness :
  idn_encode sample_env 4 (0%nat, 0) false initial_state_with_host
    = Done (None, initial_state_with_host) /\
  (exists st', idn_encode rejecting_env 4 (0%nat, 0) true initial_state_with_host
                 = Done (None, st')) /\
  (exists s, (idna_to_ascii_8z sample_env s).1 = IDNA_SUCCESS /\
             heap_cstring (mem latin1_state) (0%nat, 0) = Done s).
Proof.
  split; [|split].
  - apply (proj1 (idn_encode_failures sample_env 4 (0%nat, 0) false initial_state_with_host)
                 None initial_state_with_host); reflexivity.
  - eexists.
    apply (proj1 (proj2 (idn_encode_failures rejecting_env 4 (0%nat, 0) true
                           initial_state_with_host))
                 (0%nat, 0) initial_state_with_host [104; 233]).
    + left. auto.
    + reflexivity.
    + discriminate.
  - destruct (proj2 (proj2 (idn_encode_failures sample_env 4 (0%nat, 0) true latin1_state))
                (2%nat, 0) _ eq_refl)
      as (h & st1 & s & [(_ & -> & ->)|[[=] _]] & Hs & Hret & _).
    exists s. split; [exact Hret | exact Hs].
Defined.

Lemma registry_setters_frame_witness :
  (exists st',
     set_current_charset (Some (0%nat, 0)) busy_registry_state = Done (tt, st') /\
     remote st' = remote busy_registry_state /\
     others_kept (mem busy_registry_state) (mem st') (current busy_registry_state) /\
     stored (mem busy_registry_state) (mem st') (Some (0%nat, 0)) (current st')) /\
  (exists st',
     set_current_charset None busy_registry_state = Done (tt, st') /\
     current st' = None /\ remote st' = remote busy_registry_state /\
     released (mem st') (current busy_registry_state) /\
     others_kept (mem busy_registry_state) (mem st') (current busy_registry_state)) /\
  (exists st',
     set_remote_charset (Some (0%nat, 0)) busy_registry_state = Done (tt, st') /\
     current st' = current busy_registry_state /\
     others_kept (mem busy_registry_state) (mem st') (remote busy_registry_state) /\
     stored (mem busy_registry_state) (mem st') (Some (0%nat, 0)) (remote st')) /\
  (exists st',
     set_remote_charset None busy_registry_state = Done (tt, st') /\
     remote st' = None /\ current st' = current busy_registry_state /\
     released (mem st') (remote busy_registry_state) /\
     others_kept (mem busy_registry_state) (mem st') (remote busy_registry_state)) /\
  (exists st',
     set_utf8_encode true busy_registry_state = Done (tt, st') /\
     utf8_encode st' = true /\ mem st' = mem busy_registry_state /\
     remote st' = remote busy_registry_state /\ current st' = current busy_registry_state).
Proof.
  pose proof (registry_setters_frame busy_registry_state)
    as (Hcur & Hrem & Hflag & Hcur_runs & Hrem_runs).
  destruct busy_registry_wf as (Hr & Hc & _).
  assert (Hcaller : forall f : option ptr, (f = Some (1%nat, 0) \/ f = Some (2%nat, 0)) ->
            forall a, Some (0%nat, 0) = Some a ->
              (exists w, heap_cstring (mem busy_registry_state) a = Done w) /\ apart f a).
  { intros f Hfield a [= <-]. split; [eexists; reflexivity|].
    intros q Hq. destruct Hfield as [-> | ->]; injection Hq as <-; discriminate. }
  split; [|split; [|split; [|split]]].
  - destruct (Hcur_runs (Some (0%nat, 0)) Hc (Hcaller _ (or_introl eq_refl))) as [st' Hrun].
    destruct (Hcur _ _ Hrun) as ((R & _) & _ & _ & Hkept & Hnew).
    exists st'. split; [exact Hrun|]. split; [exact R|]. split; [exact Hkept | exact Hnew].
  - destruct (Hcur_runs None Hc) as [st' Hrun]; [intros a [=]|].
    destruct (Hcur _ _ Hrun) as ((R & _) & Hfree & _ & Hkept & Hnew & _).
    exists st'. split; [exact Hrun|]. split; [exact Hnew|]. split; [exact R|].
    split; [exact Hfree | exact Hkept].
  - destruct (Hrem_runs (Some (0%nat, 0)) Hr (Hcaller _ (or_intror eq_refl))) as [st' Hrun].
    destruct (Hrem _ _ Hrun) as ((C & _) & _ & _ & Hkept & Hnew).
    exists st'. split; [exact Hrun|]. split; [exact C|]. split; [exact Hkept | exact Hnew].
  - destruct (Hrem_runs None Hr) as [st' Hrun]; [intros a [=]|].
    destruct (Hrem _ _ Hrun) as ((C & _) & Hfree & _ & Hkept & Hnew & _).
    exists st'. split; [exact Hrun|]. split; [exact Hnew|]. split; [exact C|].
    split; [exact Hfree | exact Hkept].
  - destruct (Hflag true) as (st' & Hrun & U & Hmem & R & C & _).
    exists st'. split; [exact Hrun|]. split; [exact U|]. split; [exact Hmem|].
    split; [exact R | exact C].
Defined.

(** ** More about the converter *)

Lemma heap_extends_lookup (h h' : heap) b :
  heap_extends h h' -> (b < length h)%nat -> h' !! b = h !! b.
Proof.
  unfold heap_extends. intros Hext Hb.
  rewrite <- (lookup_take_lt h' (length h) b Hb), Hext. reflexivity.
Qed.

Lemma heap_extends_strings h h' : heap_extends h h' -> strings_kept h h'.
Proof.
  intros Hext q s Hs. rewrite <- Hs. apply heap_cstring_lookup.
  apply heap_extends_lookup; [exact Hext | eapply heap_cstring_lt, Hs].
Qed.

Lemma heap_extends_refl (h : heap) : heap_extends h h.
Proof. unfold heap_extends. apply take_ge. lia. Qed.

Lemma heap_extends_app (h k : heap) : heap_extends h (h ++ k).
Proof. unfold heap_extends. apply take_app_length. Qed.

Lemma above_heap_extends (h h' : heap) : above (length h) h h' -> heap_extends h h'.
Proof.
  intros [Htake _]. unfold heap_extends. rewrite Htake. apply take_ge. lia.
Qed.

Lemma heap_cstring_buffer h o free :
  Forall (fun c => c <> 0) o ->
  heap_cstring (h ++ [Block true (buffer (o ++ [0]) free)]) (length h, 0) = Done o.
Proof.
  intros Ho. unfold heap_cstring. simpl. rewrite live_cells_app_new. simpl.
  change (Z.to_nat 0) with 0%nat. rewrite drop_0. apply cstring_of_literal, Ho.
Qed.

(** X1.  When the conversion of the input has no NUL byte and is at most
    twice as long as the input, [do_conversion] succeeds, the string at the
    pointer it stores in [*out] is exactly that conversion, the pointer is
    the start of a block that did not exist before, and the heap it was
    given is still there, unchanged. *)
Theorem do_conversion_exact_when_fits c id inp o fuel st :
  descriptors st !! id = Some (Descriptor true c) ->
  spec_conversion c 0 inp = Some o ->
  Forall (fun b => b <> 0) o ->
  (length o <= 2 * length inp)%nat ->
  2 * Z.of_nat (length inp) < 2 ^ 63 ->
  (length inp < fuel)%nat ->
  exists st',
    do_conversion fuel (IconvDesc id) inp st = Done ((true, (length (mem st), 0)), st') /\
    heap_cstring (mem st') (length (mem st), 0) = Done o /\
    heap_extends (mem st) (mem st') /\
    same_globals st st'.
Proof.
  intros Hd Hspec Hnul Hfit Hsmall Hfuel.
  destruct (do_conversion_fits c id inp o fuel st Hd Hspec Hfit Hsmall Hfuel)
    as (st' & Hrun & Hm & G).
  exists st'. split; [exact Hrun|]. rewrite Hm.
  split; [apply heap_cstring_buffer, Hnul|]. split; [apply heap_extends_app | exact G].
Qed.

(** X2.  Whatever the handle and the input, when [do_conversion] returns,
    with success or not, every string that could be read before the call
    reads the same after it, the registry, the options and the descriptors
    are as they were, and the pointer left in [*out] points into a block
    that did not exist before the call. *)
Theorem do_conversion_keeps_strings fuel cd inp st r p st' :
  do_conversion fuel cd inp st = Done ((r, p), st') ->
  strings_kept (mem st) (mem st') /\ same_globals st st' /\ (length (mem st) <= p.1)%nat.
Proof.
  intros H. apply do_conversion_frame in H as (G & Hext & Hp).
  split; [apply heap_extends_strings, Hext|]. split; [exact G | exact Hp].
Qed.

Lemma allocated_insert_live (h : heap) b cs q :
  allocated h q -> allocated (<[b := Block true cs]> h) q.
Proof.
  intros [cs' Hq]. unfold allocated.
  destruct (decide (b = q.1)) as [->|Hne].
  - exists cs. apply list_lookup_insert_eq. eapply lookup_lt_Some, Hq.
  - exists cs'. rewrite list_lookup_insert_ne by exact Hne. exact Hq.
Qed.

Lemma heap_store_allocated h p c h' q :
  heap_store h p c = Done h' -> allocated h q -> allocated h' q.
Proof.
  unfold heap_store. destruct (live_cells h p.1); simpl; try discriminate.
  destruct (_ || _); [discriminate|]. intros [= <-]. apply allocated_insert_live.
Qed.

Lemma heap_store_bytes_allocated bs : forall h p h' q,
  heap_store_bytes h p bs = Done h' -> allocated h q -> allocated h' q.
Proof.
  induction bs as [|c bs IH]; intros h p h' q; simpl.
  - intros [= <-]. auto.
  - destruct (heap_store h p c) as [h1| |] eqn:Hst; simpl; try discriminate.
    intros Hrest Hq. eapply IH; [exact Hrest|]. eapply heap_store_allocated; eassumption.
Qed.

Lemma iconv_chars_allocated c inp : forall skip out outlen h r inp' out' outlen' h' q,
  iconv_chars c skip inp out outlen h = Done (r, inp', out', outlen', h') ->
  allocated h q -> allocated h' q.
Proof.
  induction inp as [|b rest IH]; intros skip out outlen h r inp' out' outlen' h' q; simpl.
  - intros [= <- <- <- <- <-]. auto.
  - destruct skip as [|k]; [|apply IH].
    destruct (c b rest) as [k o| | |e]; try (intros [= <- <- <- <- <-]; auto).
    destruct (outlen <? Z.of_nat (length o)); [intros [= <- <- <- <- <-]; auto|].
    destruct (heap_store_bytes h out o) as [h1| |] eqn:Hst; simpl; try discriminate.
    intros Hrest Hq. eapply IH; [exact Hrest|].
    eapply heap_store_bytes_allocated; eassumption.
Qed.

Lemma iconv_allocated cd inp out outlen st r st' q :
  iconv cd inp out outlen st = Done (r, st') ->
  allocated (mem st) q -> allocated (mem st') q /\ log st' = log st.
Proof.
  intros H Hq. apply iconv_Done in H as [[_ ->]|(id & c & h & _ & _ & Hc & ->)].
  - auto.
  - destruct r as [[[r0 i0] o0] l0]. split; [|reflexivity].
    eapply iconv_chars_allocated; eassumption.
Qed.

Lemma log_shape_later r l : log_shape false r l -> forall first, log_shape first r l.
Proof.
  intros (pre & [->|[[=] _]] & Hl) first. exists []. split; [left; reflexivity | exact Hl].
Qed.

Lemma log_shape_noted r l :
  log_shape false r l -> log_shape true r (LogInvalidSequence :: l).
Proof.
  intros (pre & [->|[[=] _]] & Hl). exists [LogInvalidSequence].
  split; [right; auto|]. destruct r.
  - rewrite Hl. reflexivity.
  - destruct Hl as (e & He & ->). exists e. auto.
Qed.

(** What the loop leaves behind, whichever way it ends. *)
Lemma do_conversion_loop_outcome cd fuel :
  forall inp out outlen len done s invalid tooshort st r p st',
  do_conversion_loop fuel cd inp out outlen len done s invalid tooshort st
    = Done ((r, p), st') ->
  0 <= invalid -> allocated (mem st) s -> out.1 = s.1 ->
  allocated (mem st') p /\
  exists l, log st' = log st ++ l /\ log_shape (invalid =? 0) r l.
Proof.
  induction fuel as [|fuel IH];
    intros inp out outlen len done s invalid tooshort st r p st' H Hinv Hs Hout; simpl in H.
  - discriminate.
  - apply bind_Done in H as ([[[r0 inp'] out'] outlen'] & st1 & Hic & H).
    pose proof (iconv_frame 0 _ _ _ _ _ _ _ _ _ _ Hic ltac:(lia)) as (_ & _ & Hblk).
    apply iconv_allocated with (q := s) in Hic as [Hs1 Hlog1]; [|exact Hs].
    destruct r0 as [|errno].
    + apply bind_Done in H as ([] & st2 & Hst & H).
      apply store_Done in Hst as (h & Hst & ->). injection H as <- <- <-.
      split; [eapply heap_store_allocated; eassumption|].
      exists []. simpl. rewrite app_nil_r. split; [exact Hlog1|].
      exists []. split; [left|]; reflexivity.
    + destruct ((errno =? EINVAL) || (errno =? EILSEQ)) eqn:Herr.
      * apply bind_Done in H as ([] & st2 & Hlog & H).
        destruct inp' as [|c inp'']; [discriminate|].
        apply bind_Done in H as ([] & st3 & Hst & H).
        apply store_Done in Hst as (h & Hst & ->).
        assert (Hm2 : mem st2 = mem st1 /\
                      log st2 = log st1 ++ (if invalid =? 0 then [LogInvalidSequence] else [])).
        { destruct (invalid =? 0); injection Hlog as <-; simpl;
            [auto | rewrite app_nil_r; auto]. }
        destruct Hm2 as [Hm2 Hl2]. rewrite Hm2 in Hst.
        apply IH in H as (Hp & l & Hl & Hshape).
        -- split; [exact Hp|]. simpl in Hl. rewrite Hl, Hl2, Hlog1, <- app_assoc.
           eexists. split; [reflexivity|].
           assert (Hnz : (invalid + 1 =? 0) = false) by (apply Z.eqb_neq; lia).
           rewrite Hnz in Hshape.
           destruct (invalid =? 0); simpl;
             [apply log_shape_noted | apply log_shape_later]; exact Hshape.
        -- lia.
        -- simpl. eapply heap_store_allocated; eassumption.
        -- simpl. congruence.
      * destruct (errno =? E2BIG) eqn:Hbig.
        -- apply bind_Done in H as (new & st2 & Hnew & H).
           apply xmalloc_Done in Hnew as [-> ->].
           apply bind_Done in H as ([] & st3 & Hcp & H).
           apply memcpy_Done in Hcp as (h3 & Hcp & ->).
           apply bind_Done in H as ([] & st4 & Hfr & H).
           apply xfree_Done in Hfr as (h4 & Hfr & ->).
           simpl in Hcp, Hfr.
           apply IH in H as (Hp & l & Hl & Hshape).
           ++ split; [exact Hp|]. exists l. simpl in Hl. rewrite Hl, Hlog1.
              split; [reflexivity | exact Hshape].
           ++ exact Hinv.
           ++ simpl. destruct Hs1 as [cs1 Hcs1].
              assert (Hlt : (s.1 < length (mem st1))%nat) by (eapply lookup_lt_Some, Hcs1).
              unfold heap_memcpy in Hcp. simpl in Hcp.
              rewrite (live_cells_app_old _ _ s.1) in Hcp by exact Hlt.
              rewrite live_cells_app_new in Hcp.
              destruct (live_cells (mem st1) s.1); simpl in Hcp; try discriminate.
              destruct (_ || _) in Hcp; [discriminate|]. injection Hcp as <-.
              unfold heap_xfree in Hfr.
              destruct (_ !! s.1) as [[[] cs]|] in Hfr; try discriminate.
              destruct (s.2 =? 0) in Hfr; [|discriminate]. injection Hfr as <-.
              unfold allocated. simpl.
              rewrite list_lookup_insert_ne by lia.
              eexists. apply list_lookup_insert_eq. rewrite length_app. simpl. lia.
           ++ reflexivity.
        -- apply bind_Done in H as ([] & st2 & Hlog & H).
           injection Hlog as <-. injection H as <- <- <-. simpl.
           split.
           ++ destruct Hs1 as [cs Hcs]. exists cs. rewrite Hblk, Hout. exact Hcs.
           ++ exists [LogUnhandledErrno errno]. rewrite Hlog1. split; [reflexivity|].
              exists []. split; [left; reflexivity|]. exists errno. split; [|reflexivity].
              unfold handled. rewrite Herr, Hbig. reflexivity.
Qed.

Lemma do_conversion_outcome fuel cd inp st r p st' :
  do_conversion fuel cd inp st = Done ((r, p), st') ->
  allocated (mem st') p /\ exists l, log st' = log st ++ l /\ log_shape true r l.
Proof.
  unfold do_conversion. intros H.
  apply bind_Done in H as (s & st1 & Hnew & H).
  apply xmalloc_Done in Hnew as [-> ->].
  apply do_conversion_loop_outcome in H; [exact H | lia | | reflexivity].
  unfold allocated. simpl. eexists. apply list_lookup_middle. reflexivity.
Qed.

(** X3.  [do_conversion] gives up only on an errno that is none of
    [EINVAL], [EILSEQ] and [E2BIG]: when it returns false, the last thing it
    logged is that errno, and the buffer that [*out] points into is still
    allocated: the converter does not release it. *)
Theorem do_conversion_failure_keeps_buffer fuel cd inp st p st' :
  do_conversion fuel cd inp st = Done ((false, p), st') ->
  allocated (mem st') p /\ (length (mem st) <= p.1)%nat /\
  exists l e, log st' = log st ++ l ++ [LogUnhandledErrno e] /\ handled e = false.
Proof.
  intros H. pose proof (do_conversion_frame _ _ _ _ _ _ _ H) as (_ & _ & Hp).
  apply do_conversion_outcome in H as (Ha & l & Hl & pre & _ & e & He & ->).
  split; [exact Ha|]. split; [exact Hp|]. exists pre, e. auto.
Qed.

(** X4.  However many invalid or incomplete sequences the input holds
    (the input being shorter than 2^31 bytes, so that the [int] that counts
    them cannot overflow), one call of [do_conversion] logs the note about
    them at most once, before anything else it logs; a successful call logs
    nothing else. *)
Theorem do_conversion_logs_invalid_once fuel cd inp st r p st' :
  Z.of_nat (length inp) < 2 ^ 31 ->
  do_conversion fuel cd inp st = Done ((r, p), st') ->
  exists l,
    log st' = log st ++ l /\
    (invalid_notes l <= 1)%nat /\
    (r = true -> l = [] \/ l = [LogInvalidSequence]).
Proof.
  intros _ H. apply do_conversion_outcome in H as (_ & l & Hl & pre & Hpre & Hshape).
  exists l. split; [exact Hl|].
  destruct r.
  - subst l. split; [|intros _].
    + destruct Hpre as [->|[_ ->]]; simpl; lia.
    + destruct Hpre as [->|[_ ->]]; auto.
  - split; [|discriminate].
    destruct Hshape as (e & _ & ->).
    destruct Hpre as [->|[_ ->]]; vm_compute; lia.
Qed.

(** ** More about the remote-to-UTF-8 transcoder *)

Lemma compare_cells_differ s1 : forall s2 r1 r2,
  Forall (fun c => c <> 0) s1 -> Forall (fun c => c <> 0) s2 -> s1 <> s2 ->
  exists d, compare_cells id (map Some (s1 ++ [0]) ++ r1) (map Some (s2 ++ [0]) ++ r2) = Done d
            /\ d <> 0.
Proof.
  induction s1 as [|x s1 IH]; intros s2 r1 r2 H1 H2 Hne.
  - destruct s2 as [|y s2]; [contradiction|].
    apply Forall_cons_1 in H2 as [Hy _]. simpl. unfold id.
    destruct y as [|y|y]; [lia| |]; (eexists; split; [reflexivity | lia]).
  - apply Forall_cons_1 in H1 as [Hx H1]. destruct s2 as [|y s2]; simpl; unfold id.
    + destruct (Z.eqb_spec x 0) as [?|_]; [lia|]. exists (x - 0). split; [reflexivity | lia].
    + apply Forall_cons_1 in H2 as [Hy H2].
      destruct (Z.eqb_spec x y) as [->|Hxy].
      * destruct (Z.eqb_spec y 0) as [?|_]; [lia|].
        apply IH; [exact H1 | exact H2 | congruence].
      * exists (x - y). split; [reflexivity | lia].
Qed.

Lemma heap_cstring_cells h p s :
  heap_cstring h p = Done s ->
  exists rest, cells_at h p = Done (map Some (s ++ [0]) ++ rest).
Proof.
  unfold heap_cstring, cells_at.
  destruct (live_cells h p.1) as [cs| |]; simpl; try discriminate.
  destruct (p.2 <? 0); [discriminate|]. intros Hs.
  destruct (cstring_of_cells _ _ Hs) as [rest ->]. eauto.
Qed.

Lemma cells_at_app_old h blk p :
  (p.1 < length h)%nat -> cells_at (h ++ [blk]) p = cells_at h p.
Proof. intros Hp. unfold cells_at. rewrite live_cells_app_old by exact Hp. reflexivity. Qed.

Lemma remote_to_utf8_run E fuel str st r name c inp o :
  match encoding_remote (opt st) with Some r => Some r | None => current st end = Some r ->
  heap_cstring (mem st) r = Done name ->
  iconv_provider E (bytes_of_string "UTF-8") name = Some c ->
  heap_cstring (mem st) str = Done inp ->
  spec_conversion c 0 inp = Some o ->
  Forall (fun b => b <> 0) o -> o <> inp ->
  (length o <= 2 * length inp)%nat ->
  2 * Z.of_nat (length inp) < 2 ^ 63 ->
  (length inp < fuel)%nat ->
  exists st',
    remote_to_utf8 E fuel str st = Done ((true, Some (length (mem st), 0)), st') /\
    mem st' = mem st ++ [Block true (buffer (o ++ [0]) (2 * length inp - length o))] /\
    same_globals (with_descriptors (descriptors st ++ [Descriptor false c]) st) st'.
Proof.
  intros Hsrc Hname Hprov Hinp Hspec Hnul Hne Hfit Hsmall Hfuel.
  unfold remote_to_utf8. rewrite !bind_gets, Hsrc.
  set (st1 := with_descriptors (descriptors st ++ [Descriptor true c]) st).
  assert (Hopen : iconv_open E (bytes_of_string "UTF-8") r st
                  = Done (IconvDesc (length (descriptors st)), st1)).
  { unfold iconv_open, cstring. unfold mbind at 1, M_bind at 1, heap_read.
    rewrite Hname, Hprov. reflexivity. }
  rewrite (bind_eq _ _ _ _ _ Hopen).
  assert (Hstr : cstring str st1 = Done (inp, st1)).
  { unfold cstring, heap_read. simpl. rewrite Hinp. reflexivity. }
  rewrite (bind_eq _ _ _ _ _ Hstr).
  destruct (do_conversion_fits c (length (descriptors st)) inp o fuel st1)
    as (st2 & Hconv & Hm2 & G); try lia.
  { simpl. apply list_lookup_middle. reflexivity. }
  { exact Hspec. }
  change (mem st1) with (mem st) in Hconv, Hm2.
  remember (2 * length inp - length o)%nat as k eqn:Hk.
  rewrite (bind_eq _ _ _ _ _ Hconv).
  unfold iconv_close. rewrite bind_modify.
  set (st3 := with_descriptors _ st2).
  pose proof (heap_cstring_no_nul _ _ _ Hinp) as Hnul_in.
  pose proof (heap_cstring_lt _ _ _ Hinp) as Hlt.
  destruct (heap_cstring_cells _ _ _ Hinp) as [rest Hcells].
  destruct (compare_cells_differ inp o rest
              (replicate k None) Hnul_in Hnul
              (fun Heq => Hne (eq_sym Heq))) as (d & Hd & Hd0).
  assert (Hcmp : strcmp str (length (mem st), 0) st3 = Done (d, st3)).
  { unfold strcmp, heap_read, heap_strcmp. simpl. rewrite Hm2.
    rewrite (cells_at_app_old _ _ str) by exact Hlt. rewrite Hcells. simpl.
    unfold cells_at. simpl. rewrite live_cells_app_new. simpl.
    change (Z.to_nat 0) with 0%nat. rewrite drop_0. unfold buffer. rewrite Hd. reflexivity. }
  rewrite (bind_eq _ _ _ _ _ Hcmp).
  destruct (Z.eqb_spec d 0) as [?|_]; [contradiction|].
  eexists. split; [reflexivity|]. simpl. split; [exact Hm2|].
  destruct G as (G1 & G2 & G3 & G4 & G5 & G6 & G7). simpl in *.
  unfold same_globals, st3. simpl. repeat split; try assumption.
  rewrite G7. unfold close_descriptor.
  rewrite list_lookup_middle by reflexivity. simpl.
  rewrite insert_app_r_alt by lia. rewrite Nat.sub_diag. reflexivity.
Qed.

(** X6.  With a source encoding whose conversion to UTF-8 is supported,
    and an input whose conversion has no NUL byte, is at most twice as long
    as the input and is not the input itself, [remote_to_utf8] returns true,
    [*new] is a fresh string holding the conversion, [str] reads as before,
    and the one descriptor the call opened is closed. *)
Theorem remote_to_utf8_converts E fuel str st r name c inp o :
  match encoding_remote (opt st) with Some r => Some r | None => current st end = Some r ->
  heap_cstring (mem st) r = Done name ->
  iconv_provider E (bytes_of_string "UTF-8") name = Some c ->
  heap_cstring (mem st) str = Done inp ->
  spec_conversion c 0 inp = Some o ->
  Forall (fun b => b <> 0) o -> o <> inp ->
  (length o <= 2 * length inp)%nat ->
  2 * Z.of_nat (length inp) < 2 ^ 63 ->
  (length inp < fuel)%nat ->
  exists st',
    remote_to_utf8 E fuel str st = Done ((true, Some (length (mem st), 0)), st') /\
    heap_cstring (mem st') (length (mem st), 0) = Done o /\
    heap_cstring (mem st') str = Done inp /\
    descriptors st' = descriptors st ++ [Descriptor false c].
Proof.
  intros Hsrc Hname Hprov Hinp Hspec Hnul Hne Hfit Hsmall Hfuel.
  destruct (remote_to_utf8_run E fuel str st r name c inp o
              Hsrc Hname Hprov Hinp Hspec Hnul Hne Hfit Hsmall Hfuel)
    as (st' & Hrun & Hm & G).
  exists st'. split; [exact Hrun|]. rewrite Hm.
  split; [apply heap_cstring_buffer, Hnul|]. split.
  - rewrite heap_cstring_app_old by (eapply heap_cstring_lt, Hinp). exact Hinp.
  - destruct G as (_ & _ & _ & _ & _ & _ & G7). exact G7.
Qed.

Lemma remote_to_utf8_frame E fuel str st res st' :
  remote_to_utf8 E fuel str st = Done (res, st') ->
  heap_extends (mem st) (mem st') /\
  opt st' = opt st /\ remote st' = remote st /\ current st' = current st /\
  utf8_encode st' = utf8_encode st /\ ugly_no_encode st' = ugly_no_encode st /\
  locale2utf8 st' = locale2utf8 st /\
  (descriptors st' = descriptors st \/
   exists c, descriptors st' = descriptors st ++ [Descriptor false c]).
Proof.
  unfold remote_to_utf8. rewrite !bind_gets. intros H.
  destruct (match encoding_remote (opt st) with Some r => Some r | None => current st end)
    as [r|].
  2:{ injection H as <- <-. split; [apply heap_extends_refl|]. repeat split. auto. }
  apply bind_Done in H as (cd & st1 & Hopen & H).
  apply iconv_open_Done in Hopen as (name & _ & Hprov).
  destruct (iconv_provider E (bytes_of_string "UTF-8") name) as [c|]; destruct Hprov as [-> ->].
  2:{ injection H as <- <-. split; [apply heap_extends_refl|]. repeat split. auto. }
  apply bind_Done in H as (inp & st2 & Hinp & H).
  apply cstring_Done in Hinp as [_ ->].
  apply bind_Done in H as ([ok new] & st3 & Hconv & H).
  apply do_conversion_frame in Hconv as (G & Hext & Hnew). simpl in Hext, Hnew.
  unfold iconv_close in H. rewrite bind_modify in H.
  apply bind_Done in H as (d & st4 & Hcmp & H).
  unfold strcmp in Hcmp. apply heap_read_Done in Hcmp as [_ ->].
  destruct G as (G1 & G2 & G3 & G4 & G5 & G6 & G7). simpl in *.
  assert (Hclosed : close_descriptor (length (descriptors st)) (descriptors st3)
                    = descriptors st ++ [Descriptor false c]).
  { rewrite G7. unfold close_descriptor.
    rewrite list_lookup_middle by reflexivity. simpl.
    rewrite insert_app_r_alt by lia. rewrite Nat.sub_diag. reflexivity. }
  destruct (d =? 0).
  - apply bind_Done in H as ([] & st5 & Hfree & H).
    apply xfree_Done in Hfree as (h & Hfree & ->). injection H as <- <-. simpl in *.
    apply heap_xfree_above with (n := length (mem st)) in Hfree as [Htake _]; [|exact Hnew].
    split; [unfold heap_extends; rewrite Htake; exact Hext|].
    repeat split; try assumption. right. eauto.
  - injection H as <- <-. simpl.
    split; [exact Hext|]. repeat split; try assumption. right. eauto.
Qed.

(** X7.  Whenever [remote_to_utf8] returns, true or false, it has written
    to no block and released no block that existed before the call: every
    string readable before, [str] among them, reads the same; and it has
    changed neither the registry nor the options nor the cached locale
    handle, nor any descriptor that existed. *)
Theorem remote_to_utf8_keeps_strings E fuel str st res st' :
  remote_to_utf8 E fuel str st = Done (res, st') ->
  strings_kept (mem st) (mem st') /\
  opt st' = opt st /\ remote st' = remote st /\ current st' = current st /\
  utf8_encode st' = utf8_encode st /\ ugly_no_encode st' = ugly_no_encode st /\
  locale2utf8 st' = locale2utf8 st /\
  take (length (descriptors st)) (descriptors st') = descriptors st.
Proof.
  intros H. apply remote_to_utf8_frame in H as (Hext & O & R & C & U & N & L & D).
  split; [apply heap_extends_strings, Hext|]. repeat split; try assumption.
  destruct D as [->|[c ->]]; [apply take_ge; lia | apply take_app_length].
Qed.

(** ** More about the locale transcoder *)

Lemma open_locale_to_utf8_cached E st :
  locale2utf8 st <> IconvNull -> open_locale_to_utf8 E st = Done (true, st).
Proof.
  intros Hcd. unfold open_locale_to_utf8. rewrite bind_gets.
  destruct (locale2utf8 st); [contradiction | reflexivity | reflexivity].
Qed.

(** The ways a call of [open_locale_to_utf8] can go. *)
Lemma open_locale_to_utf8_cases E st b st1 :
  open_locale_to_utf8 E st = Done (b, st1) ->
  (locale2utf8 st <> IconvNull /\ b = true /\ st1 = st) \/
  (locale2utf8 st = IconvNull /\
   mem st1 = mem st /\ remote st1 = remote st /\ current st1 = current st /\
   locale (opt st1) = match locale (opt st) with
                      | Some l => Some l
                      | None => stringprep_locale_charset E
                      end /\
   (locale (opt st) = None -> exists l, log st1 = log st ++ LogLocaleUnset :: l) /\
   if b
   then exists l name c,
          locale (opt st1) = Some l /\ heap_cstring (mem st) l = Done name /\
          iconv_provider E (bytes_of_string "UTF-8") name = Some c /\
          descriptors st1 = descriptors st ++ [Descriptor true c] /\
          locale2utf8 st1 = IconvDesc (length (descriptors st))
   else locale2utf8 st1 = IconvNull /\ descriptors st1 = descriptors st).
Proof.
  unfold open_locale_to_utf8. rewrite bind_gets.
  destruct (locale2utf8 st) eqn:Hcd;
    try (intros [= <- <-]; left; repeat split; discriminate).
  intros H. right. split; [reflexivity|].
  rewrite bind_gets in H.
  apply bind_Done in H as ([] & st0 & Hdef & H).
  assert (Hst0 : mem st0 = mem st /\ remote st0 = remote st /\ current st0 = current st /\
                 descriptors st0 = descriptors st /\ locale2utf8 st0 = IconvNull /\
                 locale (opt st0) = match locale (opt st) with
                                    | Some l => Some l
                                    | None => stringprep_locale_charset E
                                    end /\
                 (locale (opt st) = None -> log st0 = log st ++ [LogLocaleUnset]) /\
                 exists l0, log st0 = log st ++ l0).
  { destruct (locale (opt st)) as [l|] eqn:Hl.
    - injection Hdef as <-. rewrite Hl, Hcd. repeat split; try discriminate.
      exists []. rewrite app_nil_r. reflexivity.
    - unfold logprintf, find_locale in Hdef.
      rewrite bind_modify, bind_mret in Hdef. injection Hdef as <-. simpl.
      rewrite Hcd. repeat split. eauto. }
  destruct Hst0 as (M0 & R0 & C0 & D0 & L0 & O0 & Hunset & l0 & Hl0).
  rewrite bind_gets in H. rewrite <- O0.
  destruct (locale (opt st0)) as [l|] eqn:Hl.
  - apply bind_Done in H as (cd & st2 & Hopen & H).
    apply iconv_open_Done in Hopen as (name & Hname & Hprov).
    rewrite bind_modify in H. rewrite M0 in Hname.
    destruct (iconv_provider E (bytes_of_string "UTF-8") name) as [c|] eqn:Hp;
      destruct Hprov as [-> ->].
    + injection H as <- <-. simpl. rewrite M0, R0, C0, D0, Hl.
      repeat split.
      * intros Hu. rewrite (Hunset Hu). exists []. reflexivity.
      * exists l, name, c. auto.
    + apply bind_Done in H as (from & st3 & Hfrom & H).
      apply cstring_Done in Hfrom as [_ ->].
      unfold logprintf in H. rewrite !bind_modify in H.
      injection H as <- <-. simpl. rewrite M0, R0, C0, D0, Hl.
      repeat split.
      intros Hu. rewrite (Hunset Hu), <- app_assoc. simpl. eauto.
  - injection H as <- <-. rewrite M0, R0, C0, D0, L0, Hl.
    repeat split.
    intros Hu. rewrite (Hunset Hu). exists []. reflexivity.
Qed.

(** X8.  The locale handle is opened at most once: with a handle cached,
    [open_locale_to_utf8] returns true and changes nothing, and after any
    call that returned true a second call returns true and changes nothing. *)
Theorem open_locale_to_utf8_opens_once E st :
  (locale2utf8 st <> IconvNull -> open_locale_to_utf8 E st = Done (true, st)) /\
  (forall st1,
     open_locale_to_utf8 E st = Done (true, st1) ->
     open_locale_to_utf8 E st1 = Done (true, st1)).
Proof.
  split; [apply open_locale_to_utf8_cached|].
  intros st1 H. apply open_locale_to_utf8_cached.
  apply open_locale_to_utf8_cases in H
    as [(Hcd & _ & ->)|(_ & _ & _ & _ & _ & _ & (l & name & c & _ & _ & _ & _ & Hcd))].
  - exact Hcd.
  - rewrite Hcd. discriminate.
Qed.

(** X9.  Starting without a cached handle: when [open_locale_to_utf8]
    returns false it has left no descriptor behind and the cache is NULL
    again, so that a later call tries anew; when it returns true, the cache
    holds a descriptor that did not exist before, open, for the conversion
    from the encoding named by [opt.locale] to UTF-8.  Either way the heap,
    [remote] and [current] are untouched. *)
Theorem open_locale_to_utf8_result E st b st1 :
  locale2utf8 st = IconvNull ->
  open_locale_to_utf8 E st = Done (b, st1) ->
  mem st1 = mem st /\ remote st1 = remote st /\ current st1 = current st /\
  if b
  then exists l name c,
         locale (opt st1) = Some l /\ heap_cstring (mem st) l = Done name /\
         iconv_provider E (bytes_of_string "UTF-8") name = Some c /\
         descriptors st1 = descriptors st ++ [Descriptor true c] /\
         locale2utf8 st1 = IconvDesc (length (descriptors st))
  else locale2utf8 st1 = IconvNull /\ descriptors st1 = descriptors st.
Proof.
  intros Hcd H. apply open_locale_to_utf8_cases in H
    as [(Hne & _)|(_ & M & R & C & _ & _ & Hb)]; [contradiction|].
  split; [exact M|]. split; [exact R|]. split; [exact C | exact Hb].
Qed.

(** X10.  The guard for an unset local encoding: called without a cached
    handle and with [opt.locale] NULL, [open_locale_to_utf8] logs that the
    locale is unset and sets [opt.locale] to what [find_locale] reports; an
    [opt.locale] that is set is left alone.  When [find_locale] has nothing
    to report either, the call returns false without opening anything. *)
Theorem open_locale_to_utf8_default_locale E st b st1 :
  locale2utf8 st = IconvNull ->
  open_locale_to_utf8 E st = Done (b, st1) ->
  locale (opt st1) = match locale (opt st) with
                     | Some l => Some l
                     | None => stringprep_locale_charset E
                     end /\
  (locale (opt st) = None -> exists l, log st1 = log st ++ LogLocaleUnset :: l) /\
  (locale (opt st1) = None -> b = false /\ descriptors st1 = descriptors st).
Proof.
  intros Hcd H. apply open_locale_to_utf8_cases in H
    as [(Hne & _)|(_ & _ & _ & _ & O & Hlog & Hb)]; [contradiction|].
  split; [exact O|]. split; [exact Hlog|].
  intros Hnone. destruct b.
  - destruct Hb as (l & _ & _ & Hl & _). congruence.
  - destruct Hb as [_ Hd]. auto.
Qed.

(** X11.  [locale_to_utf8] never closes the locale handle and never opens
    a second one: with a handle cached, the descriptors and the cache are
    the same after the call; without one, the call either opens nothing or
    leaves exactly one new descriptor, open and cached.  It changes neither
    [remote] nor [current] nor any string that existed before. *)
Theorem locale_to_utf8_keeps_handle E fuel str st p st' :
  locale_to_utf8 E fuel str st = Done (p, st') ->
  strings_kept (mem st) (mem st') /\ remote st' = remote st /\ current st' = current st /\
  (locale2utf8 st <> IconvNull ->
     descriptors st' = descriptors st /\ locale2utf8 st' = locale2utf8 st) /\
  (locale2utf8 st = IconvNull ->
     (descriptors st' = descriptors st /\ locale2utf8 st' = IconvNull) \/
     (exists c, descriptors st' = descriptors st ++ [Descriptor true c] /\
                locale2utf8 st' = IconvDesc (length (descriptors st)))).
Proof.
  unfold locale_to_utf8. rewrite bind_gets. intros H.
  apply bind_Done in H as (d & st0 & Hcmp & H).
  assert (st0 = st) as ->.
  { unfold strcasecmp in Hcmp. destruct (locale (opt st)); [|discriminate].
    apply heap_read_Done in Hcmp as [_ ->]. reflexivity. }
  assert (Hid : strings_kept (mem st) (mem st)) by (intros q s Hs; exact Hs).
  destruct (d =? 0).
  { injection H as <- <-. repeat split; auto. }
  apply bind_Done in H as (opened & st1 & Hopen & H).
  apply open_locale_to_utf8_cases in Hopen.
  assert (Hopen' :
    mem st1 = mem st /\ remote st1 = remote st /\ current st1 = current st /\
    (locale2utf8 st <> IconvNull ->
       descriptors st1 = descriptors st /\ locale2utf8 st1 = locale2utf8 st) /\
    (locale2utf8 st = IconvNull ->
       (descriptors st1 = descriptors st /\ locale2utf8 st1 = IconvNull) \/
       (exists c, descriptors st1 = descriptors st ++ [Descriptor true c] /\
                  locale2utf8 st1 = IconvDesc (length (descriptors st))))).
  { destruct Hopen as [(Hne & _ & ->)|(Hnull & M & R & C & _ & _ & Hb)].
    - repeat split; auto; intros Hnull; contradiction.
    - split; [exact M|]. split; [exact R|]. split; [exact C|].
      split; [intros Hne; contradiction|]. intros _.
      destruct opened.
      + destruct Hb as (l & name & c & _ & _ & _ & Hd & Hcd). right. eauto.
      + left. destruct Hb. auto. }
  clear Hopen. destruct Hopen' as (M1 & R1 & C1 & Hcached & Hfresh).
  destruct opened; simpl in H.
  2:{ injection H as <- <-. rewrite M1.
      split; [exact Hid|]. split; [exact R1|]. split; [exact C1|].
      split; [exact Hcached | exact Hfresh]. }
  rewrite bind_gets in H.
  apply bind_Done in H as (inp & st2 & Hinp & H).
  apply cstring_Done in Hinp as [_ ->].
  apply bind_Done in H as ([ok new] & st3 & Hconv & H).
  apply do_conversion_frame in Hconv as (G & Hext & _).
  destruct G as (_ & G2 & G3 & _ & _ & G6 & G7).
  assert (st' = st3) as -> by (destruct ok; injection H as <- <-; reflexivity).
  rewrite M1 in Hext. rewrite G2, G3, G6, G7.
  split; [apply heap_extends_strings, Hext|]. split; [exact R1|]. split; [exact C1|].
  split; [exact Hcached | exact Hfresh].
Qed.

Lemma open_locale_to_utf8_opens E st l name c :
  locale2utf8 st = IconvNull -> locale (opt st) = Some l ->
  heap_cstring (mem st) l = Done name ->
  iconv_provider E (bytes_of_string "UTF-8") name = Some c ->
  open_locale_to_utf8 E st
    = Done (true, with_locale2utf8 (IconvDesc (length (descriptors st)))
                    (with_descriptors (descriptors st ++ [Descriptor true c]) st)).
Proof.
  intros Hcd Hl Hname Hprov. unfold open_locale_to_utf8.
  rewrite bind_gets, Hcd, bind_gets, Hl, bind_mret, bind_gets, Hl.
  assert (Hopen : iconv_open E (bytes_of_string "UTF-8") l st
                  = Done (IconvDesc (length (descriptors st)),
                          with_descriptors (descriptors st ++ [Descriptor true c]) st)).
  { unfold iconv_open, cstring. unfold mbind at 1, M_bind at 1, heap_read.
    rewrite Hname, Hprov. reflexivity. }
  rewrite (bind_eq _ _ _ _ _ Hopen). reflexivity.
Qed.

(** X12.  With [opt.locale] naming an encoding other than UTF-8 whose
    conversion to UTF-8 is supported, no handle cached yet, and an input
    whose conversion has no NUL byte and is at most twice as long as the
    input, [locale_to_utf8] returns a fresh string that holds the
    conversion (also when the conversion changed no byte), [str] reads as
    before, and the handle stays open and cached. *)
Theorem locale_to_utf8_converts E fuel str st l name d c inp o :
  locale (opt st) = Some l ->
  heap_strcasecmp (mem st) l (bytes_of_string "utf-8") = Done d -> d <> 0 ->
  locale2utf8 st = IconvNull ->
  heap_cstring (mem st) l = Done name ->
  iconv_provider E (bytes_of_string "UTF-8") name = Some c ->
  heap_cstring (mem st) str = Done inp ->
  spec_conversion c 0 inp = Some o ->
  Forall (fun b => b <> 0) o ->
  (length o <= 2 * length inp)%nat ->
  2 * Z.of_nat (length inp) < 2 ^ 63 ->
  (length inp < fuel)%nat ->
  exists st',
    locale_to_utf8 E fuel str st = Done ((length (mem st), 0), st') /\
    heap_cstring (mem st') (length (mem st), 0) = Done o /\
    heap_cstring (mem st') str = Done inp /\
    descriptors st' = descriptors st ++ [Descriptor true c] /\
    locale2utf8 st' = IconvDesc (length (descriptors st)).
Proof.
  intros Hl Hcmp Hd Hcd Hname Hprov Hinp Hspec Hnul Hfit Hsmall Hfuel.
  unfold locale_to_utf8. rewrite bind_gets, Hl.
  assert (Hcmp' : strcasecmp (Some l) (bytes_of_string "utf-8") st = Done (d, st)).
  { unfold strcasecmp, heap_read. rewrite Hcmp. reflexivity. }
  rewrite (bind_eq _ _ _ _ _ Hcmp').
  destruct (Z.eqb_spec d 0) as [?|_]; [contradiction|].
  rewrite (bind_eq _ _ _ _ _ (open_locale_to_utf8_opens E st l name c Hcd Hl Hname Hprov)).
  simpl. rewrite bind_gets. simpl.
  set (st1 := with_locale2utf8 _ _).
  assert (Hstr : cstring str st1 = Done (inp, st1)).
  { unfold cstring, heap_read. simpl. rewrite Hinp. reflexivity. }
  rewrite (bind_eq _ _ _ _ _ Hstr).
  destruct (do_conversion_fits c (length (descriptors st)) inp o fuel st1)
    as (st2 & Hconv & Hm2 & G); try lia.
  { simpl. apply list_lookup_middle. reflexivity. }
  { exact Hspec. }
  change (mem st1) with (mem st) in Hconv, Hm2.
  rewrite (bind_eq _ _ _ _ _ Hconv).
  exists st2. split; [reflexivity|]. rewrite Hm2.
  split; [apply heap_cstring_buffer, Hnul|]. split.
  - rewrite heap_cstring_app_old by (eapply heap_cstring_lt, Hinp). exact Hinp.
  - destruct G as (_ & _ & _ & _ & _ & G6 & G7). rewrite G6, G7. auto.
Qed.

(** ** More about the registry *)

Lemma set_current_as_locale_copy st l w :
  field_ok (mem st) (current st) -> locale (opt st) = Some l ->
  heap_cstring (mem st) l = Done w -> apart (current st) l ->
  set_current_as_locale st
    = Done (tt, with_current (Some (length (mem st), 0))
                  (with_mem (mark_free (mem st) (current st) ++ [bytes_block w]) st)).
Proof.
  intros Hold Hl Hw Ha. unfold set_current_as_locale. rewrite bind_gets.
  unfold mbind at 1, M_bind at 1. rewrite (release_owned _ _ Hold).
  rewrite bind_gets. simpl. rewrite Hl.
  assert (Hdup : xstrdup l (with_mem (mark_free (mem st) (current st)) st)
                 = Done ((length (mem st), 0),
                         with_mem (mark_free (mem st) (current st) ++ [bytes_block w]) st)).
  { unfold xstrdup, mbind, M_bind, cstring, heap_read. simpl.
    rewrite heap_cstring_mark_free by exact Ha. rewrite Hw. simpl.
    unfold strdup_bytes, heap_new. simpl. rewrite length_mark_free. reflexivity. }
  rewrite (bind_eq _ _ _ _ _ Hdup). reflexivity.
Qed.

(** X13.  With [opt.locale] set, [set_current_as_locale] releases what
    [current] held and makes [current] a copy, in a block of its own, of the
    string [opt.locale] points to; [opt.locale] and [remote] are left as
    they were, and a registry that was in order is in order afterwards. *)
Theorem set_current_as_locale_copies_locale st l w :
  field_ok (mem st) (current st) -> locale (opt st) = Some l ->
  heap_cstring (mem st) l = Done w -> apart (current st) l ->
  exists st' c,
    set_current_as_locale st = Done (tt, st') /\ current st' = Some c /\
    private_copy (mem st') c l w /\ released (mem st') (current st) /\
    remote st' = remote st /\ opt st' = opt st /\
    (registry_wf st -> registry_wf st').
Proof.
  intros Hf Hl Hw Ha.
  destruct (swap_private_copy _ _ _ _ Hf Hw Ha) as (Hcopy & Hrel & _).
  eexists _, _. split; [apply (set_current_as_locale_copy st l w Hf Hl Hw Ha)|].
  split; [reflexivity|]. split; [exact Hcopy|]. split; [exact Hrel|].
  split; [reflexivity|]. split; [reflexivity|].
  intros (Hrem & Hcur & Hdis).
  pose proof (heap_cstring_no_nul _ _ _ Hw) as Hnul.
  split; [|split]; simpl.
  - apply field_ok_survives; assumption.
  - rewrite <- (length_mark_free (mem st) (current st)). apply field_ok_fresh, Hnul.
  - intros p q Hp [= <-]. simpl. pose proof (field_ok_below _ _ _ Hrem Hp). lia.
Qed.

(** X14.  With [opt.locale] unset, [set_current_as_locale] hands NULL to
    [xstrdup], after it has released what [current] held: the call
    dereferences NULL. *)
Theorem set_current_as_locale_unset_locale st :
  field_ok (mem st) (current st) -> locale (opt st) = None ->
  set_current_as_locale st = Fault NullDeref.
Proof.
  intros Hold Hl. unfold set_current_as_locale. rewrite bind_gets.
  unfold mbind at 1, M_bind at 1. rewrite (release_owned _ _ Hold).
  rewrite bind_gets. simpl. rewrite Hl. reflexivity.
Qed.

Lemma registry_wf_clear_remote st st' :
  registry_wf st -> set_remote_charset None st = Done (tt, st') -> registry_wf st'.
Proof.
  intros (Hrem & Hcur & Hdis). rewrite (set_remote_charset_null st Hrem). intros [= <-].
  split; [|split]; simpl.
  - exact I.
  - apply field_ok_mark_free; [exact Hcur|].
    intros p q Hp Hq Heq. exact (Hdis q p Hq Hp (eq_sym Heq)).
  - intros p q [=].
Qed.

(** X15.  The registry is in order at process start (each field NULL or
    the owner of a block of its own that holds a string), and every
    operation on it that returns keeps it in order, given that the strings
    handed to the setters are not the ones the registry owns. *)
Theorem registry_wf_preserved st :
  registry_wf initial_state /\
  (registry_wf st ->
   (forall a w st', heap_cstring (mem st) a = Done w -> apart (current st) a ->
      set_current_charset (Some a) st = Done (tt, st') -> registry_wf st') /\
   (forall st', set_current_charset None st = Done (tt, st') -> registry_wf st') /\
   (forall a w st', heap_cstring (mem st) a = Done w -> apart (remote st) a ->
      set_remote_charset (Some a) st = Done (tt, st') -> registry_wf st') /\
   (forall st', set_remote_charset None st = Done (tt, st') -> registry_wf st') /\
   (forall st', set_remote_as_current st = Done (tt, st') -> registry_wf st') /\
   (forall b st', set_utf8_encode b st = Done (tt, st') -> registry_wf st') /\
   (forall b st', set_ugly_no_encode b st = Done (tt, st') -> registry_wf st') /\
   (forall st', reset_utf8_encode st = Done (tt, st') -> registry_wf st')).
Proof.
  split; [apply registry_wf_initial|]. intros Hwf.
  split; [intros a w st'; apply registry_wf_set_current; exact Hwf|].
  split; [intros st'; apply registry_wf_clear_current; exact Hwf|].
  split; [intros a w st'; apply registry_wf_set_remote; exact Hwf|].
  split; [intros st'; apply registry_wf_clear_remote; exact Hwf|].
  split; [intros st'; apply registry_wf_set_remote_as_current; exact Hwf|].
  split; [|split]; intros; match goal with H : _ = Done _ |- _ => injection H as <- end;
    exact Hwf.
Qed.

(** ** More about the charset parser *)

Lemma c_isascii_range c : c_isascii c = true <-> 0 <= c < 128.
Proof.
  unfold c_isascii. rewrite Z.eqb_eq, <- Z.ldiff_land.
  change 127 with (Z.ones 7). rewrite Z.ldiff_ones_r by lia.
  rewrite Z.shiftl_eq_0_iff by lia. rewrite Z.shiftr_div_pow2 by lia.
  change (2 ^ 7) with 128. split.
  - intros H. apply Z.div_small_iff in H; lia.
  - intros H. apply Z.div_small. exact H.
Qed.

Lemma encoding_chars_ok_iff s : encoding_chars_ok s = true <-> Forall encoding_byte s.
Proof.
  induction s as [|c s IH]; simpl.
  - split; [constructor | reflexivity].
  - destruct (c_isascii c) eqn:Ha; destruct (c_isspace c) eqn:Hs; simpl.
    + split; [discriminate|]. intros H. apply Forall_cons_1 in H as [[_ H] _]. congruence.
    + rewrite IH. split.
      * intros H. constructor; [|exact H]. split; [apply c_isascii_range, Ha | exact Hs].
      * intros H. apply Forall_cons_1 in H as [_ H]. exact H.
    + split; [discriminate|]. intros H. apply Forall_cons_1 in H as [[_ H] _]. congruence.
    + split; [discriminate|]. intros H. apply Forall_cons_1 in H as [[H _] _].
      apply c_isascii_range in H. congruence.
Qed.

(** X18.  [check_encoding_name] accepts a name exactly when each of its
    bytes is in the range 0 to 127 and is no white space (so the empty name
    is accepted); a name it accepts leaves the state as it was, a name it
    rejects adds one line to the log and changes nothing else. *)
Theorem check_encoding_name_exact encoding st s :
  heap_cstring (mem st) encoding = Done s ->
  exists ok : bool,
    check_encoding_name encoding st
      = Done (ok, if ok then st else with_log (log st ++ [LogEncodingInvalid s]) st) /\
    (ok = true <-> Forall encoding_byte s).
Proof.
  intros Hs. exists (encoding_chars_ok s). split; [|apply encoding_chars_ok_iff].
  unfold check_encoding_name, mbind, M_bind, cstring, heap_read. rewrite Hs.
  destruct (encoding_chars_ok s); reflexivity.
Qed.

Lemma scan_token_split s :
  exists rest, s = scan_token s ++ rest /\
               Forall (fun c => c_isspace c = false) (scan_token s).
Proof.
  induction s as [|c s (rest & Hs & Hns)]; simpl.
  - exists []. split; [reflexivity | constructor].
  - destruct (c_isspace c) eqn:Hc.
    + exists (c :: s). split; [reflexivity | constructor].
    + exists rest. split; [simpl; congruence | constructor; assumption].
Qed.

Lemma scan_token_Forall (P : byte -> Prop) s : Forall P s -> Forall P (scan_token s).
Proof.
  induction 1 as [|c s Hc _ IH]; simpl; [constructor|].
  destruct (c_isspace c); constructor; assumption.
Qed.

(** The ways a call of [parse_charset] can go. *)
Lemma parse_charset_cases str st res st' :
  parse_charset str st = Done (res, st') ->
  (res = None /\ st' = st) \/
  (exists p s i,
     str = Some p /\ heap_cstring (mem st) p = Done s /\
     strcasestr s charset_key = Some i /\
     let token := scan_token (drop (i + 8) s) in
     Forall (fun c => c <> 0) token /\
     if encoding_chars_ok token
     then res = Some (length (mem st), 0) /\
          st' = with_mem (mem st ++ [bytes_block token]) st
     else res = None /\
          st' = with_mem (mem st ++ [Block false (cells (bytes_block token))])
                  (with_log (log st ++ [LogEncodingInvalid token]) st)).
Proof.
  unfold parse_charset. destruct str as [p|]; [|intros [= <- <-]; left; auto].
  intros H. apply bind_Done in H as (c & st0 & Hc & H).
  unfold load in Hc. apply heap_read_Done in Hc as [_ ->].
  destruct (c =? 0); [injection H as <- <-; left; auto|].
  apply bind_Done in H as (s & st0 & Hs & H).
  apply cstring_Done in Hs as [Hs ->].
  destruct (strcasestr s charset_key) as [i|] eqn:Hi; [|injection H as <- <-; left; auto].
  right. exists p, s, i. split; [reflexivity|]. split; [exact Hs|]. split; [exact Hi|].
  cbv zeta.
  assert (Hnul : Forall (fun c => c <> 0) (scan_token (drop (i + 8) s))).
  { apply scan_token_Forall. apply Forall_drop. eapply heap_cstring_no_nul, Hs. }
  split; [exact Hnul|].
  set (token := scan_token (drop (i + 8) s)) in *.
  set (st1 := with_mem (mem st ++ [bytes_block token]) st).
  assert (Hdup : strdup_bytes token st = Done ((length (mem st), 0), st1)) by reflexivity.
  rewrite (bind_eq _ _ _ _ _ Hdup) in H.
  pose proof (check_encoding_name_fresh st token Hnul) as Hchk. fold st1 in Hchk.
  destruct (encoding_chars_ok token).
  - rewrite (bind_eq _ _ _ _ _ Hchk) in H. injection H as <- <-. auto.
  - rewrite (bind_eq _ _ _ _ _ Hchk) in H. simpl in H.
    unfold mbind, M_bind, xfree, heap_write, heap_xfree in H. simpl in H.
    rewrite list_lookup_middle in H by reflexivity. simpl in H.
    injection H as <- <-. split; [reflexivity|].
    unfold with_mem, with_log. simpl. f_equal.
    rewrite insert_app_r_alt by lia. rewrite Nat.sub_diag. reflexivity.
Qed.

(** X16.  Whatever string [parse_charset] is given, when it returns a
    charset, that charset is a fresh string, a copy of the bytes that follow
    the first [charset=] of the input up to the next white space or the end,
    and each of its bytes is in the range 0 to 127 and no white space: it
    passes [check_encoding_name].  Nothing is logged and no global is
    changed. *)
Theorem parse_charset_result_valid str st q st' :
  parse_charset str st = Done (Some q, st') ->
  exists p s i token rest,
    str = Some p /\ heap_cstring (mem st) p = Done s /\
    strcasestr s charset_key = Some i /\ drop (i + 8) s = token ++ rest /\
    (rest = [] \/ exists c rest', rest = c :: rest' /\ c_isspace c = true) /\
    Forall encoding_byte token /\
    q = (length (mem st), 0) /\ heap_cstring (mem st') q = Done token /\
    st' = with_mem (mem st ++ [bytes_block token]) st.
Proof.
  intros H. apply parse_charset_cases in H as [[[=] _]|(p & s & i & -> & Hs & Hi & Hnul & H)].
  cbv zeta in H.
  destruct (encoding_chars_ok (scan_token (drop (i + 8) s))) eqn:Hok;
    [|destruct H as [[=] _]].
  destruct H as [[= ->] ->].
  destruct (scan_token_split (drop (i + 8) s)) as (rest & Hsplit & Hns).
  exists p, s, i, (scan_token (drop (i + 8) s)), rest.
  split; [reflexivity|]. split; [exact Hs|]. split; [exact Hi|]. split; [exact Hsplit|].
  split.
  { destruct rest as [|c rest']; [left; reflexivity|]. right. exists c, rest'.
    split; [reflexivity|].
    destruct (c_isspace c) eqn:Hc; [reflexivity|].
    (* a byte that is no white space would have been taken into the token *)
    exfalso. revert Hsplit. generalize (drop (i + 8) s). intros t.
    induction t as [|x t IH]; simpl.
    - intros [=].
    - destruct (c_isspace x) eqn:Hx.
      + simpl. intros [= -> _]. congruence.
      + simpl. intros [= Ht]. apply IH. exact Ht. }
  split; [apply encoding_chars_ok_iff, Hok|]. split; [reflexivity|].
  split; [apply heap_cstring_fresh, Hnul | reflexivity].
Qed.

(** X17.  When [parse_charset] returns NULL (for a NULL or empty string,
    for a string without [charset=], or for a token it rejects), it leaves
    nothing allocated: the heap is as before, or as before plus one block
    that has been released again, and every string that existed reads the
    same.  For a NULL pointer nothing at all is done. *)
Theorem parse_charset_null_releases str st st' :
  parse_charset str st = Done (None, st') ->
  (mem st' = mem st \/ exists cs, mem st' = mem st ++ [Block false cs]) /\
  strings_kept (mem st) (mem st') /\
  remote st' = remote st /\ current st' = current st /\ opt st' = opt st /\
  (str = None -> st' = st).
Proof.
  intros H. pose proof H as H0.
  apply parse_charset_cases in H as [[_ ->]|(p & s & i & -> & Hs & Hi & Hnul & H)].
  - split; [left; reflexivity|]. split; [intros q t Ht; exact Ht|]. auto.
  - cbv zeta in H. destruct (encoding_chars_ok (scan_token (drop (i + 8) s)));
      destruct H as [[=] ->]. simpl.
    split; [right; eauto|]. split; [apply heap_extends_strings, heap_extends_app|].
    repeat split. discriminate.
Qed.

(** ** More about the IDN codec *)

(** X19.  Whenever [idn_encode] returns, with a domain or with NULL, no
    string that existed before has changed, [host] among them, the registry
    and the options are as they were, and no descriptor is left open: for a
    host flagged as UTF-8 none was opened, otherwise at most one was, and it
    is closed. *)
Theorem idn_encode_keeps_strings E fuel host utf8_encoded st res st' :
  idn_encode E fuel host utf8_encoded st = Done (res, st') ->
  strings_kept (mem st) (mem st') /\
  opt st' = opt st /\ remote st' = remote st /\ current st' = current st /\
  utf8_encode st' = utf8_encode st /\ ugly_no_encode st' = ugly_no_encode st /\
  (descriptors st' = descriptors st \/
   exists c, descriptors st' = descriptors st ++ [Descriptor false c]) /\
  (utf8_encoded = true -> descriptors st' = descriptors st).
Proof.
  intros H.
  assert (Hstep : forall h st1 r1 st2,
            idn_to_ascii E h st1 = Done (r1, st2) ->
            heap_extends (mem st1) (mem st2) /\ same_globals st1 st2).
  { intros h st1 r1 st2 Hidn. apply idn_to_ascii_Done in Hidn as (s & _ & Hidn).
    destruct (idna_to_ascii_8z E s) as [ret output].
    destruct (ret =? IDNA_SUCCESS); destruct Hidn as [_ ->]; simpl.
    - split; [apply heap_extends_app | apply same_globals_mem].
    - split; [apply heap_extends_refl | apply same_globals_log]. }
  unfold idn_encode in H. destruct utf8_encoded; simpl in H.
  - apply Hstep in H as (Hext & O & R & C & U & N & _ & D).
    split; [apply heap_extends_strings, Hext|]. repeat split; auto.
  - apply bind_Done in H as ([converted new] & st1 & Hconv & H).
    apply remote_to_utf8_frame in Hconv as (Hext1 & O1 & R1 & C1 & U1 & N1 & _ & D1).
    assert (Hrest : heap_extends (mem st1) (mem st') /\ same_globals st1 st').
    { destruct converted; simpl in H.
      - destruct new as [h|]; [|discriminate]. eapply Hstep, H.
      - injection H as <- <-. split; [apply heap_extends_refl | apply same_globals_refl]. }
    destruct Hrest as (Hext2 & O2 & R2 & C2 & U2 & N2 & _ & D2).
    split.
    { intros q s Hs. apply (heap_extends_strings _ _ Hext2).
      apply (heap_extends_strings _ _ Hext1). exact Hs. }
    rewrite O2, R2, C2, U2, N2, D2. repeat split; try assumption. discriminate.
Qed.

(** X20.  For a host not flagged as UTF-8 whose conversion from the source
    encoding is supported, has no NUL byte, is at most twice as long as the
    host and differs from it, and whose converted form the to-ASCII
    operation accepts: [idn_encode] returns a fresh string holding what
    to-ASCII made of the converted bytes (not of the bytes of [host]).  The
    buffer with the converted bytes is not released: it is still allocated,
    and still holds them, when the call returns. *)
Theorem idn_encode_converts_then_encodes E fuel host st r name c inp o a :
  match encoding_remote (opt st) with Some r => Some r | None => current st end = Some r ->
  heap_cstring (mem st) r = Done name ->
  iconv_provider E (bytes_of_string "UTF-8") name = Some c ->
  heap_cstring (mem st) host = Done inp ->
  spec_conversion c 0 inp = Some o ->
  Forall (fun b => b <> 0) o -> o <> inp ->
  (length o <= 2 * length inp)%nat ->
  2 * Z.of_nat (length inp) < 2 ^ 63 ->
  (length inp < fuel)%nat ->
  idna_to_ascii_8z E o = (IDNA_SUCCESS, a) ->
  Forall (fun b => b <> 0) a ->
  exists st',
    idn_encode E fuel host false st = Done (Some (S (length (mem st)), 0), st') /\
    heap_cstring (mem st') (S (length (mem st)), 0) = Done a /\
    heap_cstring (mem st') (length (mem st), 0) = Done o /\
    heap_cstring (mem st') host = Done inp.
Proof.
  intros Hsrc Hname Hprov Hinp Hspec Hnul Hne Hfit Hsmall Hfuel Hidna Hnul_a.
  destruct (remote_to_utf8_run E fuel host st r name c inp o
              Hsrc Hname Hprov Hinp Hspec Hnul Hne Hfit Hsmall Hfuel)
    as (st1 & Hrun & Hm1 & _).
  unfold idn_encode. simpl. rewrite (bind_eq _ _ _ _ _ Hrun). simpl.
  assert (Ho : heap_cstring (mem st1) (length (mem st), 0) = Done o).
  { rewrite Hm1. apply heap_cstring_buffer, Hnul. }
  assert (Hlen : length (mem st1) = S (length (mem st))).
  { rewrite Hm1, length_app. simpl. lia. }
  exists (with_mem (mem st1 ++ [bytes_block a]) st1). split.
  { unfold idn_to_ascii, mbind at 1, M_bind at 1, cstring, heap_read.
    rewrite Ho, Hidna. simpl.
    unfold mbind, M_bind, strdup_bytes, heap_new. simpl. rewrite Hlen. reflexivity. }
  simpl. split; [|split].
  - rewrite <- Hlen. apply heap_cstring_fresh, Hnul_a.
  - rewrite heap_cstring_app_old by (simpl; lia). exact Ho.
  - rewrite heap_cstring_app_old by (rewrite Hlen; pose proof (heap_cstring_lt _ _ _ Hinp); lia).
    rewrite Hm1, heap_cstring_app_old by (eapply heap_cstring_lt, Hinp). exact Hinp.
Qed.

(** ** The further theorems at work on concrete inputs *)

Lemma do_conversion_exact_when_fits_witness :
  exists st',
    do_conversion 3 (IconvDesc 0) [104; 233] opened_latin1_state
      = Done ((true, (length (mem opened_latin1_state), 0)), st') /\
    heap_cstring (mem st') (length (mem opened_latin1_state), 0) = Done [104; 195; 169] /\
    heap_extends (mem opened_latin1_state) (mem st') /\
    same_globals opened_latin1_state st'.
Proof.
  apply (do_conversion_exact_when_fits latin1_to_utf8 0%nat [104; 233] [104; 195; 169] 3
           opened_latin1_state).
  - reflexivity.
  - reflexivity.
  - repeat constructor; discriminate.
  - simpl. lia.
  - simpl. lia.
  - simpl. lia.
Defined.

Lemma do_conversion_keeps_strings_witness :
  exists st',
    do_conversion 3 (IconvDesc 0) [104; 233] opened_latin1_state = Done ((true, (2%nat, 0)), st') /\
    strings_kept (mem opened_latin1_state) (mem st') /\
    same_globals opened_latin1_state st' /\
    (length (mem opened_latin1_state) <= 2)%nat.
Proof.
  eexists. split; [vm_compute; reflexivity|].
  apply (do_conversion_keeps_strings 3 (IconvDesc 0) [104; 233] opened_latin1_state
           true (2%nat, 0)).
  vm_compute; reflexivity.
Defined.

Lemma do_conversion_failure_keeps_buffer_witness :
  exists st',
    do_conversion 4 (IconvDesc 0) [97] (state_with_codec failing_codec)
      = Done ((false, (0%nat, 0)), st') /\
    allocated (mem st') (0%nat, 0) /\
    exists l e, log st' = [] ++ l ++ [LogUnhandledErrno e] /\ handled e = false.
Proof.
  eexists. split; [vm_compute; reflexivity|].
  destruct (do_conversion_failure_keeps_buffer 4 (IconvDesc 0) [97]
              (state_with_codec failing_codec) (0%nat, 0) _ eq_refl)
    as (Ha & _ & Hlog).
  split; [exact Ha | exact Hlog].
Defined.

Lemma do_conversion_logs_invalid_once_witness :
  exists st',
    do_conversion 4 (IconvDesc 0) [255; 255] (state_with_codec tis620_to_utf8)
      = Done ((true, (0%nat, 0)), st') /\
    exists l, log st' = [] ++ l /\ (invalid_notes l <= 1)%nat.
Proof.
  eexists. split; [vm_compute; reflexivity|].
  destruct (do_conversion_logs_invalid_once 4 (IconvDesc 0) [255; 255]
              (state_with_codec tis620_to_utf8) true (0%nat, 0) _
              ltac:(simpl; lia) eq_refl)
    as (l & Hl & Hn & _).
  exists l. split; [exact Hl | exact Hn].
Defined.

Lemma remote_to_utf8_same_bytes_witness :
  exists st',
    remote_to_utf8 sample_env 4 (0%nat, 0) ascii_state
      = Done ((false, Some (length (mem ascii_state), 0)), st') /\
    mem st' = mem ascii_state
              ++ [Block false (buffer (bytes_of_string "abc" ++ [0]) 3)].
Proof.
  apply (remote_to_utf8_same_bytes sample_env 4 (0%nat, 0) ascii_state (1%nat, 0)
           (bytes_of_string "ISO-8859-1") latin1_to_utf8 (bytes_of_string "abc")).
  - reflexivity.
  - reflexivity.
  - reflexivity.
  - reflexivity.
  - reflexivity.
  - simpl. lia.
  - simpl. lia.
Defined.

Lemma remote_to_utf8_converts_witness :
  exists st',
    remote_to_utf8 sample_env 3 (0%nat, 0) latin1_state
      = Done ((true, Some (length (mem latin1_state), 0)), st') /\
    heap_cstring (mem st') (length (mem latin1_state), 0) = Done [104; 195; 169] /\
    heap_cstring (mem st') (0%nat, 0) = Done [104; 233] /\
    descriptors st' = descriptors latin1_state ++ [Descriptor false latin1_to_utf8].
Proof.
  apply (remote_to_utf8_converts sample_env 3 (0%nat, 0) latin1_state (1%nat, 0)
           (bytes_of_string "ISO-8859-1") latin1_to_utf8 [104; 233] [104; 195; 169]).
  - reflexivity.
  - reflexivity.
  - reflexivity.
  - reflexivity.
  - reflexivity.
  - repeat constructor; discriminate.
  - discriminate.
  - simpl. lia.
  - simpl. lia.
  - simpl. lia.
Defined.

Lemma remote_to_utf8_keeps_strings_witness :
  exists st',
    remote_to_utf8 sample_env 3 (0%nat, 0) latin1_state = Done ((true, Some (2%nat, 0)), st') /\
    strings_kept (mem latin1_state) (mem st') /\
    current st' = current latin1_state /\
    take (length (descriptors latin1_state)) (descriptors st') = descriptors latin1_state.
Proof.
  eexists. split; [vm_compute; reflexivity|].
  destruct (remote_to_utf8_keeps_strings sample_env 3 (0%nat, 0) latin1_state
              (true, Some (2%nat, 0)) _ eq_refl)
    as (Hk & _ & _ & Hc & _ & _ & _ & Hd).
  split; [exact Hk|]. split; [exact Hc | exact Hd].
Defined.

Lemma open_locale_to_utf8_opens_once_witness :
  open_locale_to_utf8 sample_env cached_locale_state = Done (true, cached_locale_state) /\
  exists st1,
    open_locale_to_utf8 sample_env (locale_state "ISO-8859-1") = Done (true, st1) /\
    open_locale_to_utf8 sample_env st1 = Done (true, st1).
Proof.
  split.
  - apply (proj1 (open_locale_to_utf8_opens_once sample_env cached_locale_state)).
    discriminate.
  - eexists. split; [vm_compute; reflexivity|].
    apply (proj2 (open_locale_to_utf8_opens_once sample_env (locale_state "ISO-8859-1"))).
    vm_compute; reflexivity.
Defined.

Lemma open_locale_to_utf8_result_witness :
  (exists st1,
     open_locale_to_utf8 sample_env (locale_state "ISO-8859-1") = Done (true, st1) /\
     exists c, descriptors st1 = [Descriptor true c] /\ locale2utf8 st1 = IconvDesc 0) /\
  (exists st1,
     open_locale_to_utf8 sample_env (locale_state "KLINGON") = Done (false, st1) /\
     locale2utf8 st1 = IconvNull /\ descriptors st1 = []).
Proof.
  split.
  - eexists. split; [vm_compute; reflexivity|].
    destruct (open_locale_to_utf8_result sample_env (locale_state "ISO-8859-1") true _
                eq_refl eq_refl)
      as (_ & _ & _ & l & name & c & _ & _ & _ & Hd & Hcd).
    exists c. split; [exact Hd | exact Hcd].
  - eexists. split; [vm_compute; reflexivity|].
    destruct (open_locale_to_utf8_result sample_env (locale_state "KLINGON") false _
                eq_refl eq_refl)
      as (_ & _ & _ & Hcd & Hd).
    split; [exact Hcd | exact Hd].
Defined.

Lemma open_locale_to_utf8_default_locale_witness :
  exists st1,
    open_locale_to_utf8 sample_env initial_state_with_host = Done (false, st1) /\
    locale (opt st1) = None /\
    exists l, log st1 = [] ++ LogLocaleUnset :: l.
Proof.
  eexists. split; [vm_compute; reflexivity|].
  destruct (open_locale_to_utf8_default_locale sample_env initial_state_with_host false _
              eq_refl eq_refl)
    as (Hl & Hlog & _).
  split; [exact Hl | exact (Hlog eq_refl)].
Defined.

Lemma locale_to_utf8_keeps_handle_witness :
  (exists st',
     locale_to_utf8 sample_env 3 (0%nat, 0) (locale_state "ISO-8859-1")
       = Done ((2%nat, 0), st') /\
     strings_kept (mem (locale_state "ISO-8859-1")) (mem st')) /\
  (exists st',
     locale_to_utf8 sample_env 3 (0%nat, 0) cached_locale_state = Done ((2%nat, 0), st') /\
     descriptors st' = descriptors cached_locale_state /\
     locale2utf8 st' = locale2utf8 cached_locale_state).
Proof.
  split.
  - eexists. split; [vm_compute; reflexivity|].
    exact (proj1 (locale_to_utf8_keeps_handle sample_env 3 (0%nat, 0)
                    (locale_state "ISO-8859-1") (2%nat, 0) _ eq_refl)).
  - eexists. split; [vm_compute; reflexivity|].
    destruct (locale_to_utf8_keeps_handle sample_env 3 (0%nat, 0) cached_locale_state
                (2%nat, 0) _ eq_refl)
      as (_ & _ & _ & Hcached & _).
    apply Hcached. discriminate.
Defined.

Lemma locale_to_utf8_converts_witness :
  exists st',
    locale_to_utf8 sample_env 3 (0%nat, 0) (locale_state "ISO-8859-1")
      = Done ((length (mem (locale_state "ISO-8859-1")), 0), st') /\
    heap_cstring (mem st') (length (mem (locale_state "ISO-8859-1")), 0)
      = Done [104; 195; 169] /\
    heap_cstring (mem st') (0%nat, 0) = Done [104; 233] /\
    descriptors st' = descriptors (locale_state "ISO-8859-1")
                      ++ [Descriptor true latin1_to_utf8] /\
    locale2utf8 st' = IconvDesc (length (descriptors (locale_state "ISO-8859-1"))).
Proof.
  apply (locale_to_utf8_converts sample_env 3 (0%nat, 0) (locale_state "ISO-8859-1")
           (1%nat, 0) (bytes_of_string "ISO-8859-1") (-12) latin1_to_utf8
           [104; 233] [104; 195; 169]).
  - reflexivity.
  - vm_compute; reflexivity.
  - discriminate.
  - reflexivity.
  - reflexivity.
  - reflexivity.
  - reflexivity.
  - reflexivity.
  - repeat constructor; discriminate.
  - simpl. lia.
  - simpl. lia.
  - simpl. lia.
Defined.

Lemma locale_registry_field_ok :
  field_ok (mem locale_registry_state) (current locale_registry_state).
Proof. split; [split; [reflexivity | eexists; reflexivity] | eexists; reflexivity]. Defined.

Lemma set_current_as_locale_copies_locale_witness :
  exists st' c,
    set_current_as_locale locale_registry_state = Done (tt, st') /\ current st' = Some c /\
    private_copy (mem st') c (0%nat, 0) (bytes_of_string "KOI8-R") /\
    remote st' = remote locale_registry_state.
Proof.
  destruct (set_current_as_locale_copies_locale locale_registry_state (0%nat, 0)
              (bytes_of_string "KOI8-R") locale_registry_field_ok eq_refl eq_refl)
    as (st' & c & Hrun & Hc & Hcopy & _ & Hrem & _).
  - intros q [= <-]. discriminate.
  - exists st', c. auto.
Defined.

Lemma set_current_as_locale_unset_locale_witness :
  set_current_as_locale busy_registry_state = Fault NullDeref.
Proof.
  apply set_current_as_locale_unset_locale; [|reflexivity].
  exact (proj1 (proj2 busy_registry_wf)).
Defined.

Lemma registry_wf_preserved_witness :
  exists st',
    set_remote_as_current busy_registry_state = Done (tt, st') /\ registry_wf st'.
Proof.
  eexists. split; [vm_compute; reflexivity|].
  destruct (proj2 (registry_wf_preserved busy_registry_state) busy_registry_wf)
    as (_ & _ & _ & _ & Hrc & _).
  apply Hrc. vm_compute; reflexivity.
Defined.

Lemma parse_charset_result_valid_witness :
  exists st' token,
    parse_charset (Some (0%nat, 0)) content_type_state = Done (Some (1%nat, 0), st') /\
    heap_cstring (mem st') (1%nat, 0) = Done token /\ Forall encoding_byte token.
Proof.
  exists (with_mem (mem content_type_state ++ [string_block "UTF-8"]) content_type_state).
  destruct (parse_charset_result_valid (Some (0%nat, 0)) content_type_state (1%nat, 0)
              (with_mem (mem content_type_state ++ [string_block "UTF-8"]) content_type_state)
              eq_refl)
    as (p & s & i & token & rest & _ & _ & _ & _ & _ & Hvalid & _ & Hread & _).
  exists token. split; [reflexivity|]. split; [exact Hread | exact Hvalid].
Defined.

Lemma parse_charset_null_releases_witness :
  exists st',
    parse_charset (Some (0%nat, 0)) bad_charset_state = Done (None, st') /\
    (mem st' = mem bad_charset_state \/
     exists cs, mem st' = mem bad_charset_state ++ [Block false cs]) /\
    strings_kept (mem bad_charset_state) (mem st').
Proof.
  eexists. split; [vm_compute; reflexivity|].
  destruct (parse_charset_null_releases (Some (0%nat, 0)) bad_charset_state _ eq_refl)
    as (Hmem & Hkept & _).
  split; [exact Hmem | exact Hkept].
Defined.

Lemma check_encoding_name_exact_witness :
  exists ok : bool,
    check_encoding_name (1%nat, 0) latin1_state
      = Done (ok, if ok then latin1_state
                  else with_log (log latin1_state
                                 ++ [LogEncodingInvalid (bytes_of_string "ISO-8859-1")])
                         latin1_state) /\
    (ok = true <-> Forall encoding_byte (bytes_of_string "ISO-8859-1")).
Proof.
  apply (check_encoding_name_exact (1%nat, 0) latin1_state (bytes_of_string "ISO-8859-1")).
  reflexivity.
Defined.

Lemma idn_encode_keeps_strings_witness :
  exists st',
    idn_encode sample_env 3 (0%nat, 0) false latin1_state = Done (Some (3%nat, 0), st') /\
    strings_kept (mem latin1_state) (mem st') /\
    current st' = current latin1_state.
Proof.
  eexists. split; [vm_compute; reflexivity|].
  destruct (idn_encode_keeps_strings sample_env 3 (0%nat, 0) false latin1_state
              (Some (3%nat, 0)) _ eq_refl)
    as (Hk & _ & _ & Hc & _).
  split; [exact Hk | exact Hc].
Defined.

Lemma idn_encode_converts_then_encodes_witness :
  exists st',
    idn_encode sample_env 3 (0%nat, 0) false latin1_state
      = Done (Some (S (length (mem latin1_state)), 0), st') /\
    heap_cstring (mem st') (S (length (mem latin1_state)), 0) = Done [104; 195; 169] /\
    heap_cstring (mem st') (length (mem latin1_state), 0) = Done [104; 195; 169] /\
    heap_cstring (mem st') (0%nat, 0) = Done [104; 233].
Proof.
  apply (idn_encode_converts_then_encodes sample_env 3 (0%nat, 0) latin1_state (1%nat, 0)
           (bytes_of_string "ISO-8859-1") latin1_to_utf8 [104; 233] [104; 195; 169]
           [104; 195; 169]).
  - reflexivity.
  - reflexivity.
  - reflexivity.
  - reflexivity.
  - reflexivity.
  - repeat constructor; discriminate.
  - discriminate.
  - simpl. lia.
  - simpl. lia.
  - simpl. lia.
  - reflexivity.
  - repeat constructor; discriminate.
Defined.
